(** * clapp: Command Line Argument Parser++ (include/clapp.hpp, version 1.1.0)

    A shallow embedding of [clapp::ArgumentParser] and of the option
    descriptors it owns, followed by the properties of the parser that
    the specification states and by further properties of the code.

    Conventions of the embedding
    - [std::string] is [string]; [std::string::npos] is [None].
    - [std::vector<std::string> m_argv] is a [list string];
      [std::unordered_map<std::string, size_t> m_options_map] is a
      [gmap string nat]; [std::vector<std::unique_ptr<Option>> m_options]
      is a list of descriptors addressed by index.
    - The class template [OptionWrapper<T>] is embedded at the value types
      [std::string], [int] and [bool]; the [double] and [float]
      specialisations of [TypeParser] are left out (floating point).
    - A C++ exception is the [Throw] outcome of the monad [M]; it carries
      the world as it is when the exception leaves the parser, since the
      mutations made before a [throw] persist.
    - Caller storage bound with [store] lives in [heap]; what the program
      prints and the callbacks it runs are recorded in [out].
    - [uint32_t m_curr_arg] is a [nat]: an argument vector never reaches
      2^32 entries, so the counter cannot wrap.
    - Printing the help is the event [Help]; the text it prints is what
      [help] returns. The members [m_name], [m_description] and
      [m_version], which only feed that text, are kept apart from the
      parser record, in [Title]. A callback is an event as well: what a
      caller's function does is not the parser's. *)

From Stdlib Require Import String Ascii ZArith Lia Bool.
From stdpp Require Import base option list gmap strings.

Local Open Scope Z_scope.
Local Open Scope nat_scope.

(** ** Strings *)

(** [std::string::find(char)]: index of the first occurrence. *)
Fixpoint find (c : ascii) (s : string) : option nat :=
  match s with
  | EmptyString => None
  | String a s' => if Ascii.eqb a c then Some 0 else S <$> find c s'
  end.

(** [s.substr(pos, n)] and [s.substr(pos)]. *)
Definition substr (s : string) (pos n : nat) : string := String.substring pos n s.
Definition substr_from (s : string) (pos : nat) : string :=
  String.substring pos (String.length s - pos) s.

Definition empty (s : string) : bool :=
  match s with EmptyString => true | _ => false end.

(** ** Exceptions *)

Inductive exn : Type :=
| ArgumentParserException (what : string)
| runtime_error (what : string)
| invalid_argument (what : string)
| out_of_range (what : string).

(** ** Type conversions *)

Class TypeParser (T : Type) := Get : string -> exn + T.

(** Primary template, instantiated at [std::string]: [T{value}]. *)
#[export] Instance TypeParser_string : TypeParser string :=
  fun value => inr value.

(** [std::stoi]: leading white space, an optional sign, at least one decimal
    digit; what follows the digits is ignored. *)
Definition isspace (c : ascii) : bool :=
  let n := nat_of_ascii c in (n =? 32) || ((9 <=? n) && (n <=? 13)).

Definition digit (c : ascii) : option Z :=
  let n := nat_of_ascii c in
  if (48 <=? n) && (n <=? 57) then Some (Z.of_nat (n - 48)) else None.

Fixpoint skip_space (s : string) : string :=
  match s with
  | String c s' => if isspace c then skip_space s' else s
  | EmptyString => s
  end.

Fixpoint digits (acc : option Z) (s : string) : option Z :=
  match s with
  | String c s' =>
      match digit c with
      | Some d => digits (Some (10 * default 0%Z acc + d)%Z) s'
      | None => acc
      end
  | EmptyString => acc
  end.

Definition INT_MIN : Z := (- 2 ^ 31)%Z.
Definition INT_MAX : Z := (2 ^ 31 - 1)%Z.

Definition stoi (value : string) : exn + Z :=
  let s := skip_space value in
  let '(neg, s) :=
    match s with
    | String "-" s' => (true, s')
    | String "+" s' => (false, s')
    | _ => (false, s)
    end in
  match digits None s with
  | None => inl (invalid_argument "stoi")
  | Some n =>
      let v := if neg then (- n)%Z else n in
      if ((v <? INT_MIN) || (INT_MAX <? v))%Z then inl (out_of_range "stoi")
      else inr v
  end.

#[export] Instance TypeParser_int : TypeParser Z := stoi.

#[export] Instance TypeParser_bool : TypeParser bool :=
  fun value => inr (empty value || String.eqb value "1" || String.eqb value "true").

(** The value types an option is declared at, and their values. *)
Inductive ValueType : Type := TString | TInt | TBool.

Inductive Value : Type :=
| VString (s : string)
| VInt (z : Z)
| VBool (b : bool).

(** [TypeParser<T>::Get(value)] for the [T] of a descriptor. *)
Definition TypeParser_Get (T : ValueType) (value : string) : exn + Value :=
  match T with
  | TString => sum_map id VString (Get (T := string) value)
  | TInt => sum_map id VInt (Get (T := Z) value)
  | TBool => sum_map id VBool (Get (T := bool) value)
  end.

(** [T m_value;] is default-initialised: empty for [std::string],
    indeterminate ([None]) for [int] and [bool]. *)
Definition default_init (T : ValueType) : option Value :=
  match T with
  | TString => Some (VString "")
  | TInt | TBool => None
  end.

(** ** Option descriptors *)

(** [std::function<void(T)> m_callback]: the do-nothing lambda a wrapper
    starts with, a caller's function, or the lambda of [addHelp]. *)
Inductive Callback : Type :=
| no_op
| user_callback (id : nat)
| print_help.

(** [struct Option]. *)
Module Option.
Record t : Type := mk {
  argument_name : string;
  short_option : string;
  long_option : string;
  description : string;
  required : bool;
  set : bool;
  flag : bool;
  overruling : bool;
  has_default_value : bool
}.

Definition name (o : t) : string :=
  short_option o +:+
  (if empty (long_option o) then "" else " (" +:+ long_option o +:+ ")").

(** [Option(_short_option, _long_option)] with the member initialisers. *)
Definition new (short long : string) : t :=
  {| argument_name := ""; short_option := short; long_option := long;
     description := ""; required := false; set := false; flag := false;
     overruling := false; has_default_value := false |}.
End Option.

(** [class OptionWrapper<T> : public Option]. *)
Record OptionWrapper : Type := {
  base : Option.t;
  T : ValueType;
  m_callback : Callback;
  m_value : option Value;
  m_ref : option nat
}.

Definition OptionWrapper_new (T : ValueType) (short long : string) : OptionWrapper :=
  {| base := Option.new short long; T := T; m_callback := no_op;
     m_value := default_init T; m_ref := None |}.

Definition with_base (f : Option.t -> Option.t) (o : OptionWrapper) : OptionWrapper :=
  {| base := f (base o); T := T o; m_callback := m_callback o;
     m_value := m_value o; m_ref := m_ref o |}.

Definition mark_set (b : Option.t) : Option.t :=
  {| Option.argument_name := Option.argument_name b;
     Option.short_option := Option.short_option b;
     Option.long_option := Option.long_option b;
     Option.description := Option.description b;
     Option.required := Option.required b;
     Option.set := true;
     Option.flag := Option.flag b;
     Option.overruling := Option.overruling b;
     Option.has_default_value := Option.has_default_value b |}.

Definition with_value (v : Value) (o : OptionWrapper) : OptionWrapper :=
  {| base := base o; T := T o; m_callback := m_callback o;
     m_value := Some v; m_ref := m_ref o |}.

(** ** The parser and its environment *)

Record ArgumentParser : Type := {
  m_curr_arg : nat;
  m_argv : list string;
  m_options_map : gmap string nat;
  m_options : list OptionWrapper;
  m_option_order : list nat
}.

(** [ArgumentParser(const std::vector<std::string>& arguments)]. *)
Definition ArgumentParser_new (arguments : list string) : ArgumentParser :=
  {| m_curr_arg := 1; m_argv := arguments; m_options_map := ∅;
     m_options := []; m_option_order := [] |}.

(** What the parser does that its caller can observe. *)
Inductive Event : Type :=
| Invoke (idx : nat) (cb : Callback) (arg : option Value)
| Help.

Record World : Type := {
  self : ArgumentParser;
  heap : gmap nat Value;
  out : list Event
}.

Definition World_new (arguments : list string) : World :=
  {| self := ArgumentParser_new arguments; heap := ∅; out := [] |}.

(** ** The monad of parser operations: state and exceptions *)

Inductive outcome (A : Type) : Type :=
| Return (a : A) (w : World)
| Throw (e : exn) (w : World).
Arguments Return {A} a w.
Arguments Throw {A} e w.

Definition M (A : Type) : Type := World -> outcome A.

#[export] Instance M_ret : MRet M := fun A a w => Return a w.
#[export] Instance M_bind : MBind M := fun A B f m w =>
  match m w with
  | Return a w' => f a w'
  | Throw e w' => Throw e w'
  end.

Definition throw {A : Type} (e : exn) : M A := fun w => Throw e w.
Definition get : M World := fun w => Return w w.
Definition on_self (f : ArgumentParser -> ArgumentParser) (w : World) : World :=
  {| self := f (self w); heap := heap w; out := out w |}.
Definition modify (f : ArgumentParser -> ArgumentParser) : M unit :=
  fun w => Return tt (on_self f w).
Definition write (l : nat) (v : Value) : M unit :=
  fun w => Return tt {| self := self w; heap := <[l := v]> (heap w); out := out w |}.
Definition emit (e : Event) : M unit :=
  fun w => Return tt {| self := self w; heap := heap w; out := out w ++ [e] |}.

(** Field updates of the parser. *)
Definition set_curr_arg (n : nat) (p : ArgumentParser) : ArgumentParser :=
  {| m_curr_arg := n; m_argv := m_argv p; m_options_map := m_options_map p;
     m_options := m_options p; m_option_order := m_option_order p |}.
Definition set_argv (a : list string) (p : ArgumentParser) : ArgumentParser :=
  {| m_curr_arg := m_curr_arg p; m_argv := a; m_options_map := m_options_map p;
     m_options := m_options p; m_option_order := m_option_order p |}.
Definition set_options_map (m : gmap string nat) (p : ArgumentParser) : ArgumentParser :=
  {| m_curr_arg := m_curr_arg p; m_argv := m_argv p; m_options_map := m;
     m_options := m_options p; m_option_order := m_option_order p |}.
Definition set_options (l : list OptionWrapper) (p : ArgumentParser) : ArgumentParser :=
  {| m_curr_arg := m_curr_arg p; m_argv := m_argv p; m_options_map := m_options_map p;
     m_options := l; m_option_order := m_option_order p |}.
Definition set_option_order (l : list nat) (p : ArgumentParser) : ArgumentParser :=
  {| m_curr_arg := m_curr_arg p; m_argv := m_argv p; m_options_map := m_options_map p;
     m_options := m_options p; m_option_order := l |}.

(** A member function called on the descriptor [m_options[idx]]. *)
Definition update_option (idx : nat) (f : OptionWrapper -> OptionWrapper) : M unit :=
  modify (fun p => set_options (alter f idx (m_options p)) p).

(** ** OptionWrapper<T>: the private members *)

(** [void setValue(const std::string& value) override]. *)
Definition setValue (idx : nat) (value : string) : M unit :=
  update_option idx (with_base mark_set);;
  w ← get;
  match m_options (self w) !! idx with
  | None => mret tt
  | Some o =>
      match TypeParser_Get (T o) value with
      | inl e => throw e
      | inr v =>
          update_option idx (with_value v);;
          match m_ref o with
          | Some l => write l v
          | None => mret tt
          end
      end
  end.

(** [void invokeCallback() override { m_callback(m_value); }].  The lambda
    installed by [addHelp] prints the help message. *)
Definition invokeCallback (idx : nat) (o : OptionWrapper) : M unit :=
  emit (Invoke idx (m_callback o) (m_value o));;
  match m_callback o with
  | print_help => emit Help
  | _ => mret tt
  end.

(** ** ArgumentParser: the private members *)

(** [std::string consume()]. *)
Definition consume : M string :=
  modify (fun p => set_curr_arg (m_curr_arg p + 1) p);;
  w ← get;
  if length (m_argv (self w)) <=? m_curr_arg (self w)
  then throw (runtime_error "No more arguments.")
  else mret (nth (m_curr_arg (self w)) (m_argv (self w)) "").

(** [parseOptionWithEqualSign(arg)]. *)
Definition parseOptionWithEqualSign (arg : string) : string * option string :=
  match find "=" arg with
  | Some equal_sign_pos =>
      (substr arg 0 equal_sign_pos, Some (substr_from arg (equal_sign_pos + 1)))
  | None => (arg, None)
  end.

(** [m_argv.insert(m_argv.begin() + pos, value)]. *)
Definition vector_insert (pos : nat) (value : string) (v : list string) : list string :=
  take pos v ++ value :: drop pos v.

(** [m_options.at(idx)]. *)
Definition options_at (idx : nat) : M OptionWrapper :=
  w ← get;
  match m_options (self w) !! idx with
  | Some o => mret o
  | None => throw (out_of_range "vector::_M_range_check")
  end.

Definition missing_argument (o : OptionWrapper) : exn :=
  ArgumentParserException
    ("Expected argument after '" +:+ Option.name (base o) +:+ "', but none given.").

(** Turns the loop of [parseArguments] has left at most: a token is scanned
    at most once, and a token with an equal sign leaves behind a value with
    one equal sign less. *)
Fixpoint count (c : ascii) (s : string) : nat :=
  match s with
  | EmptyString => 0
  | String a s' => (if Ascii.eqb a c then 1 else 0) + count c s'
  end.

Definition weight (token : string) : nat := S (count "=" token).

Definition pending (p : ArgumentParser) : nat :=
  sum_list (weight <$> drop (m_curr_arg p) (m_argv p)).

Definition required_missing (o : OptionWrapper) : exn :=
  ArgumentParserException ("Option '" +:+ Option.name (base o) +:+ "' is required.").

(** [bool checkOverrulingOptions()], the range-for from descriptor [idx] on. *)
Fixpoint checkOverrulingOptions_from (idx : nat) (options : list OptionWrapper) : M bool :=
  match options with
  | [] => mret false
  | o :: rest =>
      if Option.set (base o) && Option.overruling (base o)
      then invokeCallback idx o;; mret true
      else checkOverrulingOptions_from (S idx) rest
  end.

Definition checkOverrulingOptions : M bool :=
  w ← get; checkOverrulingOptions_from 0 (m_options (self w)).

(** [void checkRequiredOptions()]. *)
Fixpoint checkRequiredOptions_from (options : list OptionWrapper) : M unit :=
  match options with
  | [] => mret tt
  | o :: rest =>
      if Option.required (base o) && negb (Option.set (base o))
      then throw (required_missing o)
      else checkRequiredOptions_from rest
  end.

Definition checkRequiredOptions : M unit :=
  w ← get; checkRequiredOptions_from (m_options (self w)).

(** [void invokeCallbacks()].  [m_options[option_idx]] is unchecked; the
    indices of [m_option_order] come from [m_options.at], so the [None]
    case does not arise. *)
Fixpoint invokeCallbacks_from (order : list nat) : M unit :=
  match order with
  | [] => mret tt
  | option_idx :: rest =>
      w ← get;
      match m_options (self w) !! option_idx with
      | Some o => invokeCallback option_idx o
      | None => mret tt
      end;;
      invokeCallbacks_from rest
  end.

Definition invokeCallbacks : M unit :=
  w ← get; invokeCallbacks_from (m_option_order (self w)).

(** [void printHelp() const { std::cout << help(); }]; the text of the
    message is not modelled. *)
Definition printHelp : M unit := emit Help.

(** The scan and [parse], generic in [assign]: the virtual
    [Option::setValue] the scan calls on the descriptor it resolved. *)
Module Virtual.
Section Scan.
Variable assign : nat -> string -> M unit.

(** One turn of the [while] loop of [parseArguments]. *)
Definition parseArguments_body : M unit :=
  w ← get;
  let arg := nth (m_curr_arg (self w)) (m_argv (self w)) "" in
  let '(option, value) := parseOptionWithEqualSign arg in
  match value with
  | Some v =>
      modify (fun p => set_argv (vector_insert (m_curr_arg p + 1) v (m_argv p)) p)
  | None => mret tt
  end;;
  match m_options_map (self w) !! option with
  | Some idx =>
      o ← options_at idx;
      (if Option.flag (base o) then assign idx ""
       else
         value ← consume;
         w' ← get;
         match m_options_map (self w') !! value with
         | Some _ => throw (missing_argument o)
         | None => assign idx value
         end);;
      modify (fun p => set_option_order (m_option_order p ++ [idx]) p)
  | None => mret tt
  end;;
  modify (fun p => set_curr_arg (m_curr_arg p + 1) p).

(** The loop, cut off after [fuel] turns. *)
Fixpoint parseArguments_loop (fuel : nat) (w : World) : option (outcome unit) :=
  if m_curr_arg (self w) <? length (m_argv (self w)) then
    match fuel with
    | 0 => None
    | S fuel' =>
        match parseArguments_body w with
        | Return _ w' => parseArguments_loop fuel' w'
        | Throw e w' => Some (Throw e w')
        end
    end
  else Some (Return tt w).

(** [void parseArguments()]: [pending] turns are enough
    ([parseArguments_loop_pending] below), so the default is never taken. *)
Definition parseArguments : M unit := fun w =>
  default (Return tt w) (parseArguments_loop (pending (self w)) w).

(** [bool parse()]. *)
Definition parse : M bool :=
  w ← get;
  if length (m_argv (self w)) <? 2 then
    printHelp;; mret false
  else
    parseArguments;;
    overruled ← checkOverrulingOptions;
    if overruled : bool then mret false
    else
      checkRequiredOptions;;
      invokeCallbacks;;
      mret true.
End Scan.
End Virtual.

Definition parseArguments_body : M unit := Virtual.parseArguments_body setValue.
Definition parseArguments : M unit := Virtual.parseArguments setValue.
Definition parse : M bool := Virtual.parse setValue.

(** ** ArgumentParser: declaring options *)

(** [template <typename T> OptionWrapper<T>& option(short_option, long_option)].
    Named [option_], since [option] is taken.  The reference it returns is
    the index of the new descriptor. *)
Definition option_ (T : ValueType) (short_option long_option : string) : M nat :=
  modify (fun p => set_options (m_options p ++ [OptionWrapper_new T short_option long_option]) p);;
  (if empty short_option && empty long_option
   then throw (ArgumentParserException
                 "Short option and long option name cannot both be empty.")
   else mret tt);;
  (if negb (empty short_option)
   then modify (fun p => set_options_map
                  (<[short_option := length (m_options p) - 1]> (m_options_map p)) p)
   else mret tt);;
  (if negb (empty long_option)
   then modify (fun p => set_options_map
                  (<[long_option := length (m_options p) - 1]> (m_options_map p)) p)
   else mret tt);;
  w ← get;
  mret (length (m_options (self w)) - 1).

(** [option<T>(long_option)], and the two overloads that store a [bool]. *)
Definition option_long (T : ValueType) (long_option : string) : M nat :=
  option_ T "" long_option.
Definition option_bool (short_option long_option : string) : M nat :=
  option_ TBool short_option long_option.
Definition option_bool_long (long_option : string) : M nat :=
  option_ TBool "" long_option.

(** ** OptionWrapper<T>: the configuration members, on descriptor [idx] *)

Definition with_required (b : bool) (o : Option.t) : Option.t :=
  {| Option.argument_name := Option.argument_name o;
     Option.short_option := Option.short_option o;
     Option.long_option := Option.long_option o;
     Option.description := Option.description o;
     Option.required := b;
     Option.set := Option.set o;
     Option.flag := Option.flag o;
     Option.overruling := Option.overruling o;
     Option.has_default_value := Option.has_default_value o |}.

Definition mark_flag (o : Option.t) : Option.t :=
  {| Option.argument_name := Option.argument_name o;
     Option.short_option := Option.short_option o;
     Option.long_option := Option.long_option o;
     Option.description := Option.description o;
     Option.required := Option.required o;
     Option.set := Option.set o;
     Option.flag := true;
     Option.overruling := Option.overruling o;
     Option.has_default_value := Option.has_default_value o |}.

Definition mark_overruling (o : Option.t) : Option.t :=
  {| Option.argument_name := Option.argument_name o;
     Option.short_option := Option.short_option o;
     Option.long_option := Option.long_option o;
     Option.description := Option.description o;
     Option.required := Option.required o;
     Option.set := Option.set o;
     Option.flag := Option.flag o;
     Option.overruling := true;
     Option.has_default_value := Option.has_default_value o |}.

Definition mark_default (o : Option.t) : Option.t :=
  {| Option.argument_name := Option.argument_name o;
     Option.short_option := Option.short_option o;
     Option.long_option := Option.long_option o;
     Option.description := Option.description o;
     Option.required := Option.required o;
     Option.set := true;
     Option.flag := Option.flag o;
     Option.overruling := Option.overruling o;
     Option.has_default_value := true |}.

Definition with_text (argument_name description : string) (o : Option.t) : Option.t :=
  {| Option.argument_name := argument_name;
     Option.short_option := Option.short_option o;
     Option.long_option := Option.long_option o;
     Option.description := description;
     Option.required := Option.required o;
     Option.set := Option.set o;
     Option.flag := Option.flag o;
     Option.overruling := Option.overruling o;
     Option.has_default_value := Option.has_default_value o |}.

Definition argument (idx : nat) (name : string) : M unit :=
  update_option idx (with_base (fun o => with_text name (Option.description o) o)).
Definition description (idx : nat) (description : string) : M unit :=
  update_option idx (with_base (fun o => with_text (Option.argument_name o) description o)).
Definition optional (idx : nat) : M unit :=
  update_option idx (with_base (with_required false)).
Definition required (idx : nat) : M unit :=
  update_option idx (with_base (with_required true)).
Definition store (idx : nat) (store : nat) : M unit :=
  update_option idx (fun o =>
    {| base := base o; T := T o; m_callback := m_callback o;
       m_value := m_value o; m_ref := Some store |}).
Definition callback (idx : nat) (callback : Callback) : M unit :=
  update_option idx (fun o =>
    {| base := base o; T := T o; m_callback := callback;
       m_value := m_value o; m_ref := m_ref o |}).
Definition flag (idx : nat) : M unit :=
  update_option idx (with_base mark_flag).

(** [OptionWrapper<T>& defaultValue(T value)]. *)
Definition defaultValue (idx : nat) (value : Value) : M unit :=
  update_option idx (fun o => with_value value (with_base mark_default o)).

Definition overruling (idx : nat) : M unit :=
  update_option idx (with_base mark_overruling).

(** [T& value()]. *)
Definition value (idx : nat) (w : World) : option Value :=
  o ← m_options (self w) !! idx; m_value o.

(** [auto& addHelp()]. *)
Definition addHelp : M nat :=
  h ← option_bool "-h" "--help";
  flag h;;
  overruling h;;
  description h "Print this help message.";;
  callback h print_help;;
  mret h.

(** Running a declaration or a call, and what is left of it. *)
Definition world {A : Type} (r : outcome A) : World :=
  match r with Return _ w | Throw _ w => w end.

(** ** Worlds met while reasoning about the scan *)

(** The three updates a turn of the scan makes to the parser: the value of
    an [option=value] token put behind it, [++m_curr_arg], and
    [m_option_order.push_back(idx)]. *)
Definition inject (value : Datatypes.option string) (w : World) : World :=
  match value with
  | Some v =>
      on_self (fun p => set_argv (vector_insert (m_curr_arg p + 1) v (m_argv p)) p) w
  | None => w
  end.
Definition advance : World -> World :=
  on_self (fun p => set_curr_arg (m_curr_arg p + 1) p).
Definition recorded (idx : nat) : World -> World :=
  on_self (fun p => set_option_order (m_option_order p ++ [idx]) p).

(** An [assign] that, like [setValue], leaves the argument vector and the
    cursor alone. *)
Definition frames (assign : nat -> string -> M unit) : Prop :=
  forall idx v w,
    m_argv (self (world (assign idx v w))) = m_argv (self w) /\
    m_curr_arg (self (world (assign idx v w))) = m_curr_arg (self w).

(** ** What the passes after the scan look at *)

(** A descriptor that short-circuits [parse], and one that fails the
    required check. *)
Definition overrules (o : OptionWrapper) : bool :=
  Option.set (base o) && Option.overruling (base o).
Definition unmet (o : OptionWrapper) : bool :=
  Option.required (base o) && negb (Option.set (base o)).

(** What [invokeCallback] on descriptor [idx] leaves in the output, and the
    world after some output. *)
Definition fired (idx : nat) (o : OptionWrapper) : list Event :=
  Invoke idx (m_callback o) (m_value o) ::
  match m_callback o with print_help => [Help] | _ => [] end.
Definition said (events : list Event) (w : World) : World :=
  {| self := self w; heap := heap w; out := out w ++ events |}.

(** The output of [invokeCallbacks]. *)
Definition dispatched (options : list OptionWrapper) (order : list nat) : list Event :=
  order ≫= fun idx =>
    match options !! idx with Some o => fired idx o | None => [] end.

(** ** What the scan may change *)

(** A descriptor as it was declared: everything but [set] and [m_value]. *)
Definition declared (o : OptionWrapper) : OptionWrapper :=
  {| base :=
       {| Option.argument_name := Option.argument_name (base o);
          Option.short_option := Option.short_option (base o);
          Option.long_option := Option.long_option (base o);
          Option.description := Option.description (base o);
          Option.required := Option.required (base o);
          Option.set := false;
          Option.flag := Option.flag (base o);
          Option.overruling := Option.overruling (base o);
          Option.has_default_value := Option.has_default_value (base o) |};
     T := T o; m_callback := m_callback o; m_value := None; m_ref := m_ref o |}.

(** [o'] is [o] later in a parse: the same declaration, and still set if it
    was. *)
Definition evolves (o o' : OptionWrapper) : Prop :=
  declared o = declared o' /\ (Option.set (base o) -> Option.set (base o')).

(** [w'] is [w] later in a scan. *)
Definition scanned (w w' : World) : Prop :=
  m_options_map (self w') = m_options_map (self w) /\
  out w' = out w /\
  Forall2 evolves (m_options (self w)) (m_options (self w')).

(** ** The scan as a reader of the tokens it has left *)

(** The tokens from the cursor on, and the world without its argument
    vector and cursor: a turn of the scan is determined by these two. *)
Definition tokens (w : World) : list string :=
  drop (m_curr_arg (self w)) (m_argv (self w)).
Definition erase : World -> World :=
  on_self (fun p => set_curr_arg 0 (set_argv [] p)).

Definition lift {A : Type} (f : World -> World) (r : outcome A) : outcome A :=
  match r with
  | Return a w => Return a (f w)
  | Throw e w => Throw e (f w)
  end.

Inductive turned : Type :=
| Turned (rest : list string) (s : World)
| Raised (e : exn) (s : World).

(** One turn of [parseArguments] on the tokens [arg :: rest]. *)
Definition turn (arg : string) (rest : list string) (s : World) : turned :=
  let '(option, value) := parseOptionWithEqualSign arg in
  let following := match value with Some v => v :: rest | None => rest end in
  match m_options_map (self s) !! option with
  | None => Turned following s
  | Some idx =>
      match m_options (self s) !! idx with
      | None => Raised (out_of_range "vector::_M_range_check") s
      | Some o =>
          if Option.flag (base o) then
            match setValue idx "" s with
            | Return _ s' => Turned following (recorded idx s')
            | Throw e s' => Raised e s'
            end
          else
            match following with
            | [] => Raised (runtime_error "No more arguments.") s
            | v :: rest' =>
                match m_options_map (self s) !! v with
                | Some _ => Raised (missing_argument o) s
                | None =>
                    match setValue idx v s with
                    | Return _ s' => Turned rest' (recorded idx s')
                    | Throw e s' => Raised e s'
                    end
                end
            end
      end
  end.

(** Two outcomes with the same result or exception that leave the same
    descriptors, map, invocation order, storage and output. *)
Definition alike {A : Type} (r1 r2 : outcome A) : Prop :=
  match r1, r2 with
  | Return a w1, Return b w2 => a = b /\ erase w1 = erase w2
  | Throw e1 w1, Throw e2 w2 => e1 = e2 /\ erase w1 = erase w2
  | _, _ => False
  end.

(** The world with another argument vector. *)
Definition with_argv (arguments : list string) : World -> World :=
  on_self (set_argv arguments).

(** ** Options absent from the input *)

(** The values a token leaves behind when it is scanned, and then they: what
    follows each equal sign of the token. *)
Fixpoint values_of (token : string) : list string :=
  match token with
  | EmptyString => []
  | String a s => (if Ascii.eqb a "=" then [s] else []) ++ values_of s
  end.

(** The keys looked up when [token], or a value it leaves behind, is
    scanned. *)
Definition names (token : string) : list string :=
  (fun t => (parseOptionWithEqualSign t).1) <$> (token :: values_of token).

(** No token left can resolve to descriptor [idx]. *)
Definition absent (idx : nat) (w : World) : Prop :=
  Forall (fun token =>
            Forall (fun k => m_options_map (self w) !! k <> Some idx) (names token))
         (tokens w).

(** ** Choice sets *)

Module Choices.
Section Choices.
(** Modelled from the spec: the descriptor field [choiceSet] ("optional
    restricted set of acceptable raw values; empty means unrestricted").
    [OptionWrapper::choices], which sets it, is not in
    [include/clapp.hpp]: only its callers in [test/test_main.cpp],
    [examples/basic.cpp] and the README are.  The sets are kept beside
    the parser, by descriptor index. *)
Definition choiceSet (table : gmap nat (list string)) (idx : nat) : list string :=
  default [] (table !! idx).

(** Modelled from the spec: the configuration member "set choice set" of
    a descriptor handle, [choices] in the tests; missing from
    [include/clapp.hpp]. *)
Definition choices (idx : nat) (set : list string)
    (table : gmap nat (list string)) : gmap nat (list string) :=
  <[idx := set]> table.

Variable table : gmap nat (list string).

(** The spec names the kind of the error only; the text of the parser
    exception that carries it is left open. *)
Variable message : OptionWrapper -> string -> string.

(** Modelled from the spec: the [InvalidChoiceError] ("raw value not in
    the declared choice set"), a parser exception; missing from
    [include/clapp.hpp]. *)
Definition InvalidChoiceError (o : OptionWrapper) (value : string) : exn :=
  ArgumentParserException (message o value).

(** Modelled from the spec: step 2 of the resolution algorithm for a
    valued option, "Validate against [choiceSet] if non-empty; on
    mismatch fail with a [InvalidChoiceError]", then convert and store;
    the check is missing from [include/clapp.hpp]. It is an override of
    the virtual [Option::setValue], which does the converting and
    storing; a flag is applied as it is. *)
Definition setValue (idx : nat) (value : string) : M unit :=
  w ← get;
  match m_options (self w) !! idx with
  | Some o =>
      if Option.flag (base o)
         || bool_decide (choiceSet table idx = [])
         || bool_decide (value ∈ choiceSet table idx)
      then setValue idx value
      else throw (InvalidChoiceError o value)
  | None => setValue idx value
  end.

Definition parseArguments_body : M unit := Virtual.parseArguments_body setValue.
Definition parseArguments : M unit := Virtual.parseArguments setValue.
Definition parse : M bool := Virtual.parse setValue.
End Choices.
End Choices.

(** The turn of the scan at the cursor of [w] raises [e] and leaves [w'],
    and so do the scan and, on a vector of two entries or more, [parse]. *)
Definition fails (w : World) (e : exn) (w' : World) : Prop :=
  parseArguments_body w = Throw e w' /\
  parseArguments w = Throw e w' /\
  (2 <= length (m_argv (self w)) -> parse w = Throw e w').

(** ** Sample parsers *)

(** What a declaration sequence leaves of a fresh parser over [arguments]. *)
Definition declare {A : Type} (arguments : list string) (decl : M A) : World :=
  world (decl (World_new arguments)).

(** A version flag that overrules and a required configuration file, as in
    [examples/basic.cpp]. *)
Definition version_and_config : M unit :=
  v ← option_bool "-v" "--version"; flag v;; overruling v;;
  callback v (user_callback 0);;
  c ← option_ TString "-c" "--cfg"; required c;; store c 0;;
  mret tt.

(** [test_option_positional] and
    [test_option_multiple_positional_interleaved_with_other_arguments] of
    [test/test_main.cpp]. *)
Definition some_file : M nat := option_long TString "SOME_FILE".
Definition files_and_numbers : M unit :=
  option_long TString "INPUT_FILE";;
  option_long TString "OUTPUT_FILE";;
  option_long TInt "-i1";;
  option_long TInt "-i2";;
  mret tt.

(** A string option bound to caller storage at location 0 and then given a
    default value. *)
Definition stored_with_default : M unit :=
  a ← option_long TString "-a";
  store a 0;;
  defaultValue a (VString "abc").

(** The same key registered twice. *)
Definition twice : M nat :=
  option_ TString "-a" "--all";;
  option_ TInt "-a" "".

(** A required option with, and without, a default value. *)
Definition required_with_default : M unit :=
  a ← option_long TString "-a";
  required a;;
  defaultValue a (VString "abc").
Definition required_without_default : M unit :=
  a ← option_long TString "-a";
  required a.

(** An overruling option with a default value, and a valued option. *)
Definition overruling_with_default : M unit :=
  v ← option_bool "-v" "--version"; overruling v;;
  callback v (user_callback 0);;
  defaultValue v (VBool true);;
  c ← option_ TString "-c" "--cfg";
  mret tt.

(** A valued option and an overruling version option, which is then given
    a default value. *)
Definition config_and_version : M unit :=
  c ← option_ TString "-c" "--cfg";
  v ← option_bool "-v" "--version"; overruling v;;
  callback v (user_callback 0).

(** [test_option_with_choices] and [test_option_with_choices_fail] of
    [test/test_main.cpp]. *)
Definition option_and_flag : M unit :=
  o ← option_long TString "--option"; store o 0;;
  a ← option_bool_long "-a"; flag a.
Definition value_or_value1 : gmap nat (list string) :=
  Choices.choices 0 ["value"; "value1"] ∅.

(** ** Invariants of a parser *)

(** The key map and the invocation record point at descriptors that
    exist. *)
Definition wf (w : World) : Prop :=
  (forall k idx, m_options_map (self w) !! k = Some idx ->
                 idx < length (m_options (self w))) /\
  Forall (fun idx => idx < length (m_options (self w))) (m_option_order (self w)).

(** The descriptors whose callbacks the output records, in order. *)
Definition invoked (events : list Event) : list nat :=
  events ≫= fun e => match e with Invoke idx _ _ => [idx] | Help => [] end.

(** No token left, and no value a token leaves behind, is a registered
    key. *)
Definition unknown (w : World) : Prop :=
  Forall (fun token =>
            Forall (fun k => m_options_map (self w) !! k = None) (names token))
         (tokens w).

(** [w'] is [w] later in a parse, as far as the vector, the cursor and the
    invocation record go: the vector has gained values behind the cursor,
    the cursor has moved on, the record has gained descriptors that
    exist. *)
Definition grown (w w' : World) : Prop :=
  m_argv (self w) `sublist_of` m_argv (self w') /\
  take (S (m_curr_arg (self w))) (m_argv (self w')) =
    take (S (m_curr_arg (self w))) (m_argv (self w)) /\
  m_curr_arg (self w) <= m_curr_arg (self w') /\
  exists added, m_option_order (self w') = m_option_order (self w) ++ added /\
    Forall (fun idx => idx < length (m_options (self w))) added.

(** ** More sample parsers *)

(** A flag bound to caller storage, as [-s] in the README. *)
Definition silent_flag : M unit :=
  s ← option_bool_long "-s"; flag s;; store s 0.

(** [test_int_store] of [test/test_main.cpp]. *)
Definition int_option : M unit :=
  a ← option_long TInt "-a"; store a 0.

(** The descriptor [addHelp] leaves. *)
Definition help_option : OptionWrapper :=
  {| base := {| Option.argument_name := ""; Option.short_option := "-h";
                Option.long_option := "--help";
                Option.description := "Print this help message.";
                Option.required := false; Option.set := false; Option.flag := true;
                Option.overruling := true; Option.has_default_value := false |};
     T := TBool; m_callback := print_help; m_value := None; m_ref := None |}.

(** A parser with the help option and a required configuration file. *)
Definition help_and_config : M unit :=
  addHelp;;
  c ← option_ TString "-c" "--cfg"; required c.

(** Two options with callbacks, none overruling. *)
Definition verbose_and_config : M unit :=
  v ← option_bool "-v" "--verbose"; flag v;; callback v (user_callback 0);;
  c ← option_ TString "-c" "--cfg"; callback c (user_callback 1);;
  mret tt.

(** ** The help message *)

(** [m_name], [m_description] and [m_version], the members of
    [ArgumentParser] that [help] reads and nothing but their setters
    writes. *)
Record Title : Type := {
  m_name : string;
  m_description : string;
  m_version : string
}.

Module Title.
(** The members as default-constructed. *)
Definition new : Title := {| m_name := ""; m_description := ""; m_version := "" |}.

(** [ArgumentParser& name(const std::string&)], [description] and
    [version]. *)
Definition name (name : string) (t : Title) : Title :=
  {| m_name := name; m_description := m_description t; m_version := m_version t |}.
Definition description (description : string) (t : Title) : Title :=
  {| m_name := m_name t; m_description := description; m_version := m_version t |}.
Definition version (version : string) (t : Title) : Title :=
  {| m_name := m_name t; m_description := m_description t; m_version := version |}.
End Title.

(** [std::endl], as the characters it writes. *)
Definition endl : string := String (ascii_of_nat 10) "".

(** [ss << std::setw(width) << std::left << s] and
    [ss << std::right << std::setw(width) << s]: the fill character is a
    space, and a string of [width] characters or more is written as it
    is. *)
Fixpoint spaces (n : nat) : string :=
  match n with
  | 0 => ""
  | S n => String " " (spaces n)
  end.
Definition setw_left (width : nat) (s : string) : string :=
  s +:+ spaces (width - String.length s).
Definition setw_right (width : nat) (s : string) : string :=
  spaces (width - String.length s) +:+ s.

(** [ss.str().size()], and the conversion to [uint32_t]. *)
Definition size (ss : string) : Z := Z.of_nat (String.length ss).
Definition uint32_t (n : Z) : Z := (n mod 2 ^ 32)%Z.

(** What [help] does: it returns the text, fails the [assert] of the usage
    loop, or reads [m_argv[0]] of an empty vector. *)
Inductive Rendered : Type :=
  | Text (s : string)
  | AssertionFailed
  | Undefined.

(** The lines written before the usage line. *)
Definition banner (t : Title) : string :=
  (if negb (empty (m_name t))
   then m_name t +:+ (if empty (m_version t) then endl else "")
   else "") +:+
  (if negb (empty (m_version t)) then " " +:+ m_version t +:+ endl else "") +:+
  (if negb (empty (m_description t)) then m_description t +:+ endl else "") +:+
  (if negb (empty (m_name t)) || negb (empty (m_version t)) ||
      negb (empty (m_description t))
   then endl else "").

(** A descriptor with no key: the one [assert] rejects. *)
Definition keyless (o : OptionWrapper) : bool :=
  empty (Option.short_option (base o)) && empty (Option.long_option (base o)).

(** What one turn of the usage loop writes for a descriptor. *)
Definition usage_entry (o : Option.t) : string :=
  (if negb (Option.required o) then "[" else "") +:+
  (if negb (empty (Option.short_option o)) then Option.short_option o
   else if negb (empty (Option.long_option o)) then Option.long_option o
   else "") +:+
  (if negb (empty (Option.argument_name o))
   then " <" +:+ Option.argument_name o +:+ ">" else "") +:+
  (if negb (Option.required o) then "]" else "") +:+
  " ".

(** The line break a turn of the usage loop starts with, when the counter
    is over the limit. *)
Definition usage_break (size0 : Z) (ss : string) (line_length : Z) : string * Z :=
  if (line_length >? uint32_t (size0 + 100))%Z
  then (ss +:+ endl +:+ " ", size0)
  else (ss, line_length).

(** The first range-for of [help]: [ss] is the text written so far,
    [size0] and [line_length] are the two [uint32_t] locals.  [NDEBUG]
    compiles the [assert] out.  The counter is advanced by
    [ss.str().size() - size], computed in [size_t] and converted to
    [uint32_t] by the assignment. *)
Fixpoint usage (NDEBUG : bool) (size0 : Z) (options : list OptionWrapper)
    (ss : string) (line_length : Z) : Datatypes.option string :=
  match options with
  | [] => Some ss
  | o :: options =>
      let '(ss, line_length) := usage_break size0 ss line_length in
      if negb NDEBUG && keyless o then None
      else
        let ss := ss +:+ usage_entry (base o) in
        usage NDEBUG size0 options ss (uint32_t (line_length + (size ss - size0)))
  end.

(** What one turn of the second range-for writes. *)
Definition listing_entry (o : Option.t) : string :=
  (if negb (empty (Option.short_option o))
   then setw_left 2 (Option.short_option o) else "") +:+
  (if negb (empty (Option.long_option o))
   then if empty (Option.short_option o)
        then setw_left 10 (Option.long_option o)
        else " " +:+ setw_right 7 (Option.long_option o)
   else "") +:+
  (if negb (empty (Option.argument_name o))
   then " <" +:+ Option.argument_name o +:+ ">" else "") +:+
  (if negb (empty (Option.description o))
   then endl +:+ "    " +:+ Option.description o else "") +:+
  endl.

Fixpoint listing (options : list OptionWrapper) : string :=
  match options with
  | [] => ""
  | o :: options => listing_entry (base o) +:+ listing options
  end.

(** [std::string help() const]. *)
Definition help (NDEBUG : bool) (t : Title) (p : ArgumentParser) : Rendered :=
  let ss := banner t in
  let size0 := uint32_t (size ss) in
  match m_argv p !! 0 with
  | None => Undefined
  | Some program =>
      match usage NDEBUG size0 (m_options p) (ss +:+ program +:+ " ") size0 with
      | None => AssertionFailed
      | Some ss => Text (ss +:+ endl +:+ listing (m_options p))
      end
  end.

(** The parser and the title of the example in [README.md]. *)
Definition sample_application : M unit :=
  addHelp;;
  v ← option_bool "-v" "--version"; flag v;; overruling v;;
  callback v (user_callback 0);;
  c ← option_ TString "-c" "--cfg"; required c;;
  argument c "json config file";; description c "Sets the config file.";;
  store c 0;;
  s ← option_bool_long "-s"; description s "Silent mode";; flag s;; store s 1;;
  f ← option_bool_long "-f"; flag f;; description f "Flag for something.".
Definition sample_title : Title :=
  Title.description "Some really useful cli program."
    (Title.version "1.0.0" (Title.name "Sample Application" Title.new)).

(** A parser whose descriptors all have a key. *)
Definition keyed (w : World) : Prop :=
  Forall (fun o => keyless o = false) (m_options (self w)).

(** The usage entries of [options], each on a line of its own. *)
Fixpoint own_lines (options : list OptionWrapper) : string :=
  match options with
  | [] => ""
  | o :: options => endl +:+ " " +:+ usage_entry (base o) +:+ own_lines options
  end.

(** * Properties *)

(** ** Splitting a token at its first equal sign *)

Lemma substring_0_all s : String.substring 0 (String.length s) s = s.
Proof. induction s; simpl; [done | by f_equal]. Qed.

Lemma find_Some_count c s p :
  find c s = Some p -> count c s = S (count c (substr_from s (p + 1))).
Proof.
  revert p. induction s as [|a s IH]; intros p; simpl; [done|].
  destruct (Ascii.eqb a c) eqn:E.
  - intros [= <-]. unfold substr_from. simpl. rewrite Nat.sub_0_r.
    by rewrite substring_0_all.
  - destruct (find c s) as [q|] eqn:F; simpl; [|done].
    intros [= <-]. rewrite (IH q eq_refl). unfold substr_from. simpl. done.
Qed.

Lemma weight_value arg option v :
  parseOptionWithEqualSign arg = (option, Some v) -> weight v < weight arg.
Proof.
  unfold parseOptionWithEqualSign, weight.
  destruct (find "=" arg) as [p|] eqn:F; [|done].
  intros [= _ <-]. rewrite (find_Some_count _ _ _ F). lia.
Qed.

Lemma split_equal_sign opt v :
  find "=" opt = None ->
  parseOptionWithEqualSign (opt +:+ "=" +:+ v) = (opt, Some v).
Proof.
  unfold parseOptionWithEqualSign.
  assert (H : forall s, find "=" s = None ->
    find "=" (s +:+ "=" +:+ v) = Some (String.length s) /\
    substr (s +:+ "=" +:+ v) 0 (String.length s) = s /\
    substr_from (s +:+ "=" +:+ v) (String.length s + 1) = v).
  { induction s as [|a s IH]; simpl.
    - intros _. unfold substr, substr_from. simpl. rewrite Nat.sub_0_r.
      by rewrite substring_0_all.
    - destruct (Ascii.eqb a "=") eqn:E; [done|].
      destruct (find "=" s) eqn:F; [done|]. intros _.
      destruct (IH eq_refl) as (-> & H2 & H3). simpl.
      unfold substr, substr_from in *. simpl. rewrite H2. done. }
  intros F. destruct (H opt F) as (-> & -> & ->). done.
Qed.

Lemma split_no_equal_sign arg :
  find "=" arg = None -> parseOptionWithEqualSign arg = (arg, None).
Proof. unfold parseOptionWithEqualSign. by intros ->. Qed.

(** ** One turn of the scan, case by case *)

Ltac run :=
  unfold mbind, M_bind, mret, M_ret, get, modify, throw, emit, write,
    advance, recorded, inject, on_self, set_argv, set_curr_arg,
    set_option_order, set_options, set_options_map in *; simpl in *.

Lemma pending_cons p :
  m_curr_arg p < length (m_argv p) ->
  pending p = weight (nth (m_curr_arg p) (m_argv p) "") +
              sum_list (weight <$> drop (S (m_curr_arg p)) (m_argv p)).
Proof.
  intros H. unfold pending.
  rewrite (drop_S (m_argv p) (nth (m_curr_arg p) (m_argv p) "") (m_curr_arg p)); [done|].
  destruct (lookup_lt_is_Some_2 _ _ H) as [x Hx].
  by rewrite (nth_lookup_Some _ _ "" _ Hx).
Qed.

Lemma sum_drop_le (l : list string) n :
  sum_list (weight <$> drop (S n) l) <= sum_list (weight <$> drop n l).
Proof.
  revert n. induction l as [|a l IH]; intros n; [by rewrite !drop_nil|].
  destruct n; [rewrite drop_0; cbn; rewrite drop_0; lia | apply IH].
Qed.

Lemma drop_vector_insert pos v (l : list string) :
  pos <= length l -> drop pos (vector_insert pos v l) = v :: drop pos l.
Proof.
  intros H. unfold vector_insert. rewrite drop_app_length'; [done|].
  rewrite length_take. lia.
Qed.

Section Turn.
Variable assign : nat -> string -> M unit.
Variable w : World.
Let arg := nth (m_curr_arg (self w)) (m_argv (self w)) "".
Let option := (parseOptionWithEqualSign arg).1.
Let value := (parseOptionWithEqualSign arg).2.

Lemma body_unmatched :
  m_options_map (self w) !! option = None ->
  Virtual.parseArguments_body assign w = Return tt (advance (inject value w)).
Proof.
  subst option value arg. unfold Virtual.parseArguments_body. run.
  destruct (parseOptionWithEqualSign _) as [o [v|]]; run; by intros ->.
Qed.

Lemma body_dangling idx :
  m_options_map (self w) !! option = Some idx ->
  m_options (self w) !! idx = None ->
  Virtual.parseArguments_body assign w =
    Throw (out_of_range "vector::_M_range_check") (inject value w).
Proof.
  subst option value arg. unfold Virtual.parseArguments_body, options_at. run.
  destruct (parseOptionWithEqualSign _) as [o [v|]]; run;
    intros H1 H2; rewrite H1; run; by rewrite H2.
Qed.

Lemma body_flag idx o :
  m_options_map (self w) !! option = Some idx ->
  m_options (self w) !! idx = Some o ->
  Option.flag (base o) = true ->
  Virtual.parseArguments_body assign w =
    match assign idx "" (inject value w) with
    | Return _ w' => Return tt (advance (recorded idx w'))
    | Throw e w' => Throw e w'
    end.
Proof.
  subst option value arg. unfold Virtual.parseArguments_body, options_at. run.
  destruct (parseOptionWithEqualSign _) as [o' [v|]]; run;
    intros H1 H2 H3; rewrite H1; run; rewrite H2; run; rewrite H3;
    by destruct (assign _ _ _).
Qed.

Lemma body_valued idx o :
  m_options_map (self w) !! option = Some idx ->
  m_options (self w) !! idx = Some o ->
  Option.flag (base o) = false ->
  Virtual.parseArguments_body assign w =
    let w1 := advance (inject value w) in
    if length (m_argv (self w1)) <=? m_curr_arg (self w1)
    then Throw (runtime_error "No more arguments.") w1
    else
      let v := nth (m_curr_arg (self w1)) (m_argv (self w1)) "" in
      match m_options_map (self w) !! v with
      | Some _ => Throw (missing_argument o) w1
      | None =>
          match assign idx v w1 with
          | Return _ w' => Return tt (advance (recorded idx w'))
          | Throw e w' => Throw e w'
          end
      end.
Proof.
  subst option value arg. unfold Virtual.parseArguments_body, options_at, consume. run.
  destruct (parseOptionWithEqualSign _) as [o' [v|]]; run;
    intros H1 H2 H3; rewrite H1; run; rewrite H2; run; rewrite H3; run.
  all: destruct (_ <=? _); [done|]; simpl;
    destruct (m_options_map (self w) !! nth _ _ _); [done|];
    by destruct (assign _ _ _).
Qed.
End Turn.

(** ** The scan terminates *)

Lemma pending_ext p q :
  m_argv p = m_argv q -> m_curr_arg p = m_curr_arg q -> pending p = pending q.
Proof. unfold pending. by intros -> ->. Qed.

Lemma pending_advance_le w : pending (self (advance w)) <= pending (self w).
Proof. unfold pending, advance. simpl. rewrite Nat.add_1_r. apply sum_drop_le. Qed.

Lemma pending_turn w :
  m_curr_arg (self w) < length (m_argv (self w)) ->
  let arg := nth (m_curr_arg (self w)) (m_argv (self w)) "" in
  pending (self (advance (inject (parseOptionWithEqualSign arg).2 w))) < pending (self w).
Proof.
  intros Hlt arg. rewrite (pending_cons _ Hlt). fold arg.
  destruct (parseOptionWithEqualSign arg) as [o [v|]] eqn:Hs; simpl.
  - unfold pending. simpl. rewrite drop_vector_insert by lia. simpl.
    rewrite Nat.add_1_r. pose proof (weight_value _ _ _ Hs) as Hw.
    unfold weight in Hw. unfold fmap. lia.
  - unfold pending. simpl. rewrite Nat.add_1_r. unfold weight. lia.
Qed.

Section Loop.
Variable assign : nat -> string -> M unit.
Hypothesis assign_frames : frames assign.

Lemma body_pending w w' :
  m_curr_arg (self w) < length (m_argv (self w)) ->
  Virtual.parseArguments_body assign w = Return tt w' ->
  pending (self w') < pending (self w).
Proof.
  intros Hlt. pose proof (pending_turn w Hlt) as Hturn. cbv zeta in Hturn.
  destruct (m_options_map (self w) !!
              (parseOptionWithEqualSign (nth (m_curr_arg (self w)) (m_argv (self w)) "")).1)
    as [idx|] eqn:Hmap.
  2:{ rewrite (body_unmatched _ _ Hmap). by intros [= <-]. }
  destruct (m_options (self w) !! idx) as [o|] eqn:Hopt.
  2:{ by rewrite (body_dangling _ _ _ Hmap Hopt). }
  destruct (Option.flag (base o)) eqn:Hflag.
  - rewrite (body_flag _ _ _ _ Hmap Hopt Hflag).
    match goal with |- context [assign ?i ?v ?x] =>
      destruct (assign_frames i v x) as [Ha Hc];
      destruct (assign i v x) as [[] w2|] end; [|done].
    intros [= <-]. simpl in Ha, Hc.
    match type of Hc with _ = m_curr_arg (self ?x) =>
      rewrite (pending_ext (self (advance (recorded idx w2))) (self (advance x))) end;
      [done | done | simpl; by rewrite Hc].
  - rewrite (body_valued _ _ _ _ Hmap Hopt Hflag). simpl.
    destruct (_ <=? _); [done|].
    destruct (m_options_map (self w) !! nth _ _ _); [done|].
    match goal with |- context [assign ?i ?v ?x] =>
      destruct (assign_frames i v x) as [Ha Hc];
      destruct (assign i v x) as [[] w2|] end; [|done].
    intros [= <-]. simpl in Ha, Hc.
    pose proof (pending_advance_le (recorded idx w2)) as Hle.
    match type of Hc with _ = m_curr_arg (self ?x) + 1 =>
      rewrite (pending_ext (self (recorded idx w2)) (self (advance x)) Ha Hc) in Hle end.
    lia.
Qed.

Lemma parseArguments_loop_mono fuel fuel' w r :
  Virtual.parseArguments_loop assign fuel w = Some r ->
  fuel <= fuel' ->
  Virtual.parseArguments_loop assign fuel' w = Some r.
Proof.
  revert fuel' w. induction fuel as [|fuel IH]; intros fuel' w; simpl.
  - destruct fuel'; simpl; destruct (_ <? _); done.
  - intros H Hle. destruct fuel' as [|fuel']; [lia|]. simpl.
    destruct (_ <? _); [|done].
    destruct (Virtual.parseArguments_body assign w); [|done].
    apply IH; [done | lia].
Qed.

Lemma parseArguments_loop_pending w fuel :
  pending (self w) <= fuel ->
  is_Some (Virtual.parseArguments_loop assign fuel w).
Proof.
  revert w. induction fuel as [|fuel IH]; intros w Hle; simpl.
  - destruct (_ <? _) eqn:Hlt; [|done].
    apply Nat.ltb_lt in Hlt. rewrite (pending_cons _ Hlt) in Hle.
    unfold weight in Hle. lia.
  - destruct (_ <? _) eqn:Hlt; [|done]. apply Nat.ltb_lt in Hlt.
    destruct (Virtual.parseArguments_body assign w) as [[] w'|] eqn:Hb; [|done].
    apply IH. pose proof (body_pending _ _ Hlt Hb). lia.
Qed.

(** The loop of [parseArguments], one turn at a time. *)
Lemma parseArguments_unfold w :
  Virtual.parseArguments assign w =
    if m_curr_arg (self w) <? length (m_argv (self w)) then
      match Virtual.parseArguments_body assign w with
      | Return _ w' => Virtual.parseArguments assign w'
      | Throw e w' => Throw e w'
      end
    else Return tt w.
Proof.
  unfold Virtual.parseArguments.
  destruct (parseArguments_loop_pending w (pending (self w))) as [r Hr]; [done|].
  rewrite Hr. simpl.
  destruct (pending (self w)) as [|n] eqn:Hn; simpl in Hr.
  - destruct (_ <? _); [done|]. by injection Hr as <-.
  - destruct (_ <? _) eqn:Hlt; [|by injection Hr as <-].
    apply Nat.ltb_lt in Hlt.
    destruct (Virtual.parseArguments_body assign w) as [[] w'|] eqn:Hb;
      [|by injection Hr as <-].
    pose proof (body_pending _ _ Hlt Hb) as Hdec.
    destruct (parseArguments_loop_pending w' (pending (self w'))) as [r' Hr']; [done|].
    rewrite Hr'. simpl.
    rewrite (parseArguments_loop_mono _ n _ _ Hr') in Hr by lia. by injection Hr.
Qed.
End Loop.

(** ** setValue *)

Lemma alter_lookup_None {A} (f : A -> A) (l : list A) i :
  l !! i = None -> alter f i l = l.
Proof.
  revert i. induction l as [|a l IH]; intros [|i]; simpl; try done.
  intros H. f_equal. by apply IH.
Qed.

Lemma setValue_unfold idx value w :
  setValue idx value w =
    match m_options (self w) !! idx with
    | None => Return tt w
    | Some o =>
        let w1 := on_self (fun p => set_options (alter (with_base mark_set) idx (m_options p)) p) w in
        match TypeParser_Get (T o) value with
        | inl e => Throw e w1
        | inr v =>
            let w2 := on_self (fun p => set_options (alter (with_value v) idx (m_options p)) p) w1 in
            match m_ref o with
            | Some l => Return tt {| self := self w2; heap := <[l := v]> (heap w2); out := out w2 |}
            | None => Return tt w2
            end
        end
    end.
Proof.
  unfold setValue, update_option. run. rewrite list_lookup_alter_eq.
  destruct (m_options (self w) !! idx) as [o|] eqn:Ho; simpl.
  - destruct (TypeParser_Get (T o) value); [done|]. by destruct (m_ref o).
  - rewrite alter_lookup_None by done. by destruct w as [[]].
Qed.

Lemma setValue_frames : frames setValue.
Proof.
  intros idx v w. rewrite setValue_unfold.
  destruct (m_options (self w) !! idx) as [o|]; [|done]. simpl.
  destruct (TypeParser_Get (T o) v); [done|]. by destruct (m_ref o).
Qed.

(** ** The passes after the scan *)

Lemma said_nil w : said [] w = w.
Proof. destruct w. unfold said. simpl. by rewrite app_nil_r. Qed.

Lemma said_said e1 e2 w : said e2 (said e1 w) = said (e1 ++ e2) w.
Proof. unfold said. simpl. by rewrite app_assoc. Qed.

Lemma invokeCallback_fired idx o w :
  invokeCallback idx o w = Return tt (said (fired idx o) w).
Proof.
  unfold invokeCallback, fired, said. run.
  destruct (m_callback o); simpl; try done. by rewrite <- app_assoc.
Qed.

Lemma checkOverrulingOptions_from_find options : forall idx w,
  checkOverrulingOptions_from idx options w =
    match list_find overrules options with
    | Some (i, o) => Return true (said (fired (idx + i) o) w)
    | None => Return false w
    end.
Proof.
  induction options as [|o options IH]; intros idx w; simpl; [done|].
  fold (overrules o). destruct (decide (overrules o)) as [H|H].
  - rewrite (proj1 (Is_true_true _) H).
    run. rewrite invokeCallback_fired. by rewrite Nat.add_0_r.
  - rewrite (proj1 (Is_true_false _) H).
    rewrite IH. destruct (list_find overrules options) as [[i o']|]; simpl; [|done].
    by rewrite Nat.add_succ_r.
Qed.

Lemma checkRequiredOptions_from_find options w :
  checkRequiredOptions_from options w =
    match list_find unmet options with
    | Some (_, o) => Throw (required_missing o) w
    | None => Return tt w
    end.
Proof.
  induction options as [|o options IH]; simpl; [done|].
  fold (unmet o). destruct (decide (unmet o)) as [H|H].
  - by rewrite (proj1 (Is_true_true _) H).
  - rewrite (proj1 (Is_true_false _) H).
    rewrite IH. by destruct (list_find unmet options) as [[i o']|].
Qed.

Lemma invokeCallbacks_from_dispatched order : forall w,
  invokeCallbacks_from order w =
    Return tt (said (dispatched (m_options (self w)) order) w).
Proof.
  induction order as [|idx order IH]; intros w; simpl.
  - by rewrite said_nil.
  - run. destruct (m_options (self w) !! idx) as [o|] eqn:Ho.
    + rewrite invokeCallback_fired. rewrite IH. simpl. by rewrite said_said.
    + rewrite IH. done.
Qed.

(** [parse], pass by pass. *)
Lemma parse_cases assign w :
  Virtual.parse assign w =
    if length (m_argv (self w)) <? 2 then Return false (said [Help] w)
    else
      match Virtual.parseArguments assign w with
      | Throw e w1 => Throw e w1
      | Return _ w1 =>
          match list_find overrules (m_options (self w1)) with
          | Some (i, o) => Return false (said (fired i o) w1)
          | None =>
              match list_find unmet (m_options (self w1)) with
              | Some (_, o) => Throw (required_missing o) w1
              | None =>
                  Return true
                    (said (dispatched (m_options (self w1)) (m_option_order (self w1))) w1)
              end
          end
      end.
Proof.
  unfold Virtual.parse, printHelp, checkOverrulingOptions, checkRequiredOptions,
    invokeCallbacks. run.
  destruct (_ <? 2); [done|].
  destruct (Virtual.parseArguments assign w) as [[] w1|e w1]; [|done].
  rewrite checkOverrulingOptions_from_find.
  destruct (list_find overrules _) as [[i o]|]; [done|].
  rewrite checkRequiredOptions_from_find.
  destruct (list_find unmet _) as [[i o]|]; [done|].
  by rewrite invokeCallbacks_from_dispatched.
Qed.

(** ** The scan, turn by turn *)

Section Invariant.
Variable assign : nat -> string -> M unit.
Hypothesis assign_frames : frames assign.

(** What every turn preserves, the scan preserves, however it ends. *)
Lemma parseArguments_invariant (P : World -> Prop) :
  (forall w, m_curr_arg (self w) < length (m_argv (self w)) ->
             P w -> P (world (Virtual.parseArguments_body assign w))) ->
  forall w, P w -> P (world (Virtual.parseArguments assign w)).
Proof.
  intros Hbody w. remember (pending (self w)) as n eqn:Hn. revert w Hn.
  induction n as [n IH] using lt_wf_ind. intros w -> HP.
  rewrite (parseArguments_unfold assign assign_frames).
  destruct (_ <? _) eqn:Hlt; [|done]. apply Nat.ltb_lt in Hlt.
  specialize (Hbody w Hlt HP).
  destruct (Virtual.parseArguments_body assign w) as [[] w'|e w'] eqn:Hb; [|done].
  eapply IH; [|done|done]. by eapply body_pending.
Qed.
End Invariant.

Lemma evolves_refl o : evolves o o.
Proof. by split. Qed.

Lemma evolves_trans o1 o2 o3 : evolves o1 o2 -> evolves o2 o3 -> evolves o1 o3.
Proof. intros [H1 H2] [H3 H4]. split; [congruence | auto]. Qed.

Lemma evolves_all (l : list OptionWrapper) : Forall2 evolves l l.
Proof. induction l; constructor; [apply evolves_refl | done]. Qed.

Lemma scanned_refl w : scanned w w.
Proof. repeat split. apply evolves_all. Qed.

Lemma scanned_trans w1 w2 w3 : scanned w1 w2 -> scanned w2 w3 -> scanned w1 w3.
Proof.
  intros (H1 & H2 & H3) (H4 & H5 & H6). repeat split; [congruence..|].
  eapply Forall2_trans; [|done..]. apply evolves_trans.
Qed.

Lemma evolves_alter (f : OptionWrapper -> OptionWrapper) idx (l : list OptionWrapper) :
  (forall o, evolves o (f o)) -> Forall2 evolves l (alter f idx l).
Proof.
  intros Hf. apply Forall2_same_length_lookup. split; [by rewrite length_alter|].
  intros i x y H1 H2. rewrite list_lookup_alter in H2. case_decide.
  - subst. rewrite H1 in H2. injection H2 as <-. apply Hf.
  - rewrite H1 in H2. injection H2 as <-. apply evolves_refl.
Qed.

Lemma setValue_scanned idx v w : scanned w (world (setValue idx v w)).
Proof.
  rewrite setValue_unfold.
  destruct (m_options (self w) !! idx) as [o|]; [|apply scanned_refl]. simpl.
  assert (scanned w (on_self (fun p => set_options
            (alter (with_base mark_set) idx (m_options p)) p) w)) as H1.
  { repeat split. simpl. apply evolves_alter. intros []; by split. }
  destruct (TypeParser_Get (T o) v) as [e|x]; [done|].
  eapply scanned_trans; [exact H1|].
  assert (forall w0, scanned w0 (on_self (fun p => set_options
            (alter (with_value x) idx (m_options p)) p) w0)) as H2.
  { intros w0. repeat split. simpl. apply evolves_alter. intros []; by split. }
  destruct (m_ref o); simpl; [|apply H2].
  destruct (H2 (on_self (fun p => set_options
            (alter (with_base mark_set) idx (m_options p)) p) w)) as (?&?&?).
  by repeat split.
Qed.

Lemma inject_scanned value w : scanned w (inject value w).
Proof. destruct value; repeat split; apply evolves_all. Qed.

Lemma advance_scanned w : scanned w (advance w).
Proof. repeat split; apply evolves_all. Qed.

Lemma recorded_scanned idx w : scanned w (recorded idx w).
Proof. repeat split; apply evolves_all. Qed.

Lemma parseArguments_body_scanned w : scanned w (world (parseArguments_body w)).
Proof.
  unfold parseArguments_body.
  set (arg := nth (m_curr_arg (self w)) (m_argv (self w)) "").
  destruct (m_options_map (self w) !! (parseOptionWithEqualSign arg).1) as [idx|] eqn:Hmap.
  2:{ rewrite (body_unmatched _ _ Hmap). simpl.
      eapply scanned_trans; [apply inject_scanned | apply advance_scanned]. }
  destruct (m_options (self w) !! idx) as [o|] eqn:Hopt.
  2:{ rewrite (body_dangling _ _ _ Hmap Hopt). apply inject_scanned. }
  destruct (Option.flag (base o)) eqn:Hflag.
  - rewrite (body_flag _ _ _ _ Hmap Hopt Hflag).
    eapply scanned_trans; [apply inject_scanned|]. fold arg.
    pose proof (setValue_scanned idx "" (inject (parseOptionWithEqualSign arg).2 w)) as Hs.
    destruct (setValue _ _ _) as [[] w2|e w2]; simpl in *; [|done].
    eapply scanned_trans; [exact Hs|].
    eapply scanned_trans; [apply recorded_scanned | apply advance_scanned].
  - rewrite (body_valued _ _ _ _ Hmap Hopt Hflag). fold arg. cbv zeta.
    assert (scanned w (advance (inject (parseOptionWithEqualSign arg).2 w))) as H1.
    { eapply scanned_trans; [apply inject_scanned | apply advance_scanned]. }
    destruct (_ <=? _); [done|]. destruct (m_options_map (self w) !! nth _ _ _); [done|].
    match goal with |- context [setValue ?i ?v ?x] =>
      pose proof (setValue_scanned i v x) as Hs; destruct (setValue i v x) as [[] w2|e w2] end;
      simpl in *.
    + eapply scanned_trans; [exact H1|]. eapply scanned_trans; [exact Hs|].
      eapply scanned_trans; [apply recorded_scanned | apply advance_scanned].
    + by eapply scanned_trans.
Qed.

Lemma parseArguments_scanned w : scanned w (world (parseArguments w)).
Proof.
  apply (parseArguments_invariant setValue setValue_frames (scanned w)); [|apply scanned_refl].
  intros w0 _ H. eapply scanned_trans; [exact H|]. apply parseArguments_body_scanned.
Qed.

(** ** The scan as a reader of tokens *)

Lemma tokens_cons w :
  m_curr_arg (self w) < length (m_argv (self w)) ->
  tokens w = nth (m_curr_arg (self w)) (m_argv (self w)) "" ::
             drop (S (m_curr_arg (self w))) (m_argv (self w)).
Proof.
  intros H. unfold tokens.
  destruct (lookup_lt_is_Some_2 _ _ H) as [x Hx].
  rewrite (nth_lookup_Some _ _ "" _ Hx). by apply drop_S.
Qed.

Lemma tokens_nil w :
  tokens w = [] <-> length (m_argv (self w)) <= m_curr_arg (self w).
Proof. unfold tokens. split; [apply drop_nil_inv | apply drop_ge]. Qed.

Lemma tokens_head w : nth (m_curr_arg (self w)) (m_argv (self w)) "" = hd "" (tokens w).
Proof.
  destruct (decide (m_curr_arg (self w) < length (m_argv (self w)))) as [H|H].
  - by rewrite (tokens_cons _ H).
  - rewrite (proj2 (tokens_nil w)) by lia. apply nth_overflow. lia.
Qed.

Lemma tokens_turn w value :
  m_curr_arg (self w) < length (m_argv (self w)) ->
  tokens (advance (inject value w)) =
    match value with
    | Some v => v :: drop (S (m_curr_arg (self w))) (m_argv (self w))
    | None => drop (S (m_curr_arg (self w))) (m_argv (self w))
    end.
Proof.
  intros H. unfold tokens. destruct value as [v|]; simpl.
  - rewrite drop_vector_insert by lia. by rewrite Nat.add_1_r.
  - by rewrite Nat.add_1_r.
Qed.

Lemma setValue_erase idx v w :
  setValue idx v (erase w) = lift erase (setValue idx v w).
Proof.
  rewrite !setValue_unfold. simpl.
  destruct (m_options (self w) !! idx) as [o|]; [|done]. simpl.
  destruct (TypeParser_Get (T o) v); [done|]. by destruct (m_ref o).
Qed.

Lemma erase_map w : m_options_map (self (erase w)) = m_options_map (self w).
Proof. done. Qed.
Lemma erase_options w : m_options (self (erase w)) = m_options (self w).
Proof. done. Qed.

(** A turn of the scan does what [turn] says on the tokens left. *)
Lemma parseArguments_body_turn w arg rest :
  tokens w = arg :: rest ->
  match turn arg rest (erase w) with
  | Turned rest' s =>
      exists w', parseArguments_body w = Return tt w' /\ tokens w' = rest' /\ erase w' = s
  | Raised e s =>
      exists w', parseArguments_body w = Throw e w' /\ erase w' = s
  end.
Proof.
  intros Htok.
  assert (m_curr_arg (self w) < length (m_argv (self w))) as Hlt.
  { destruct (decide (m_curr_arg (self w) < length (m_argv (self w)))); [done|].
    rewrite (proj2 (tokens_nil w)) in Htok by lia. done. }
  rewrite (tokens_cons _ Hlt) in Htok. injection Htok as Harg Hrest.
  unfold turn, parseArguments_body. rewrite <- Harg, !erase_map, !erase_options.
  pose proof (tokens_turn w (parseOptionWithEqualSign
    (nth (m_curr_arg (self w)) (m_argv (self w)) "")).2 Hlt) as Hfol.
  rewrite Hrest in Hfol.
  destruct (m_options_map (self w) !!
    (parseOptionWithEqualSign (nth (m_curr_arg (self w)) (m_argv (self w)) "")).1)
    as [idx|] eqn:Hmap.
  2:{ rewrite (body_unmatched _ _ Hmap).
      destruct (parseOptionWithEqualSign _) as [option value]; cbn [fst snd] in *.
      rewrite Hmap. eexists. split; [done|]. split; [|by destruct value].
      by destruct value. }
  destruct (m_options (self w) !! idx) as [o|] eqn:Hopt.
  2:{ rewrite (body_dangling _ _ _ Hmap Hopt).
      destruct (parseOptionWithEqualSign _) as [option value]; cbn [fst snd] in *.
      rewrite Hmap, Hopt. eexists. split; [done|]. by destruct value. }
  destruct (Option.flag (base o)) eqn:Hflag.
  - rewrite (body_flag _ _ _ _ Hmap Hopt Hflag).
    destruct (parseOptionWithEqualSign _) as [option value]; cbn [fst snd] in *.
    rewrite Hmap, Hopt, Hflag.
    assert (erase (inject value w) = erase w) as He by (by destruct value).
    rewrite <- He, setValue_erase.
    pose proof (setValue_frames idx "" (inject value w)) as [Ha Hc].
    destruct (setValue idx "" (inject value w)) as [[] w2|e w2]; simpl in *.
    + eexists. split; [done|]. split; [|done].
      unfold tokens in *. simpl in *. rewrite Ha, Hc. destruct value; done.
    + eexists. done.
  - rewrite (body_valued _ _ _ _ Hmap Hopt Hflag).
    destruct (parseOptionWithEqualSign _) as [option value]; cbn [fst snd] in *.
    rewrite Hmap, Hopt, Hflag. cbv zeta.
    set (w1 := advance (inject value w)) in *.
    assert (erase w1 = erase w) as He by (by destruct value).
    rewrite (tokens_head w1).
    destruct (length (m_argv (self w1)) <=? m_curr_arg (self w1)) eqn:Hend.
    + apply Nat.leb_le, tokens_nil in Hend. rewrite Hend in Hfol.
      destruct value; [done|]. rewrite <- Hfol. eexists. done.
    + apply Nat.leb_gt in Hend. rewrite (tokens_cons _ Hend) in Hfol |- *.
      assert (match value with Some v => v :: rest | None => rest end =
              nth (m_curr_arg (self w1)) (m_argv (self w1)) "" ::
              drop (S (m_curr_arg (self w1))) (m_argv (self w1))) as -> by done.
      simpl.
      destruct (m_options_map (self w) !! nth _ _ _); [by eexists|].
      rewrite <- He, setValue_erase.
      match goal with |- context [setValue ?i ?v ?x] =>
        pose proof (setValue_frames i v x) as [Ha Hc];
        destruct (setValue i v x) as [[] w2|e w2] end; simpl in *.
      * eexists. split; [done|]. split; [|done].
        unfold tokens. simpl. rewrite Ha, Hc. by rewrite Nat.add_1_r.
      * by eexists.
Qed.

(** ** Scans over the same tokens *)

Lemma tokens_cursor w :
  tokens w <> [] <-> m_curr_arg (self w) < length (m_argv (self w)).
Proof. rewrite tokens_nil. lia. Qed.

Lemma parseArguments_done w : tokens w = [] -> parseArguments w = Return tt w.
Proof.
  intros H. unfold parseArguments. rewrite (parseArguments_unfold _ setValue_frames).
  apply tokens_nil in H. apply Nat.ltb_ge in H. by rewrite H.
Qed.

Lemma parseArguments_next w arg rest :
  tokens w = arg :: rest ->
  parseArguments w =
    match parseArguments_body w with
    | Return _ w' => parseArguments w'
    | Throw e w' => Throw e w'
    end.
Proof.
  intros H. unfold parseArguments at 1. rewrite (parseArguments_unfold _ setValue_frames).
  assert (tokens w <> []) as Hne by (by rewrite H).
  apply tokens_cursor, Nat.ltb_lt in Hne. by rewrite Hne.
Qed.

(** The scan is determined by the tokens left and by the erased world. *)
Lemma parseArguments_alike w1 w2 :
  tokens w1 = tokens w2 -> erase w1 = erase w2 ->
  alike (parseArguments w1) (parseArguments w2).
Proof.
  remember (pending (self w1)) as n eqn:Hn. revert w1 w2 Hn.
  induction n as [n IH] using lt_wf_ind. intros w1 w2 -> Htok Her.
  destruct (tokens w1) as [|arg rest] eqn:H1.
  - rewrite !parseArguments_done by done. done.
  - symmetry in Htok.
    rewrite (parseArguments_next _ _ _ H1), (parseArguments_next _ _ _ Htok).
    pose proof (parseArguments_body_turn _ _ _ H1) as S1.
    pose proof (parseArguments_body_turn _ _ _ Htok) as S2.
    rewrite <- Her in S2.
    assert (m_curr_arg (self w1) < length (m_argv (self w1))) as Hlt.
    { apply tokens_cursor. by rewrite H1. }
    destruct (turn arg rest (erase w1)) as [rest' s|e s].
    + destruct S1 as (w1' & Hb1 & T1 & E1), S2 as (w2' & Hb2 & T2 & E2).
      rewrite Hb1, Hb2.
      eapply IH; [|done|congruence|congruence].
      by eapply (body_pending setValue setValue_frames).
    + destruct S1 as (w1' & -> & E1), S2 as (w2' & -> & E2). split; congruence.
Qed.

Lemma turn_app arg rest X s rest' s' :
  turn arg rest s = Turned rest' s' ->
  turn arg (rest ++ X) s = Turned (rest' ++ X) s'.
Proof.
  unfold turn. destruct (parseOptionWithEqualSign arg) as [option value].
  destruct (m_options_map (self s) !! option) as [idx|].
  2:{ intros [= <- <-]. by destruct value. }
  destruct (m_options (self s) !! idx) as [o|]; [|done].
  destruct (Option.flag (base o)).
  - destruct (setValue idx "" s) as [[] s1|]; [|done].
    intros [= <- <-]. by destruct value.
  - destruct value as [v|]; simpl.
    + destruct (m_options_map (self s) !! v); [done|].
      destruct (setValue idx v s) as [[] s1|]; [|done]. by intros [= <- <-].
    + destruct rest as [|v rest]; [done|]. simpl.
      destruct (m_options_map (self s) !! v); [done|].
      destruct (setValue idx v s) as [[] s1|]; [|done]. by intros [= <- <-].
Qed.

(** Scanning past a prefix that is a complete command line by itself. *)
Lemma parseArguments_prefix X c : forall a c',
  parseArguments c = Return tt c' ->
  erase a = erase c -> tokens a = tokens c ++ X ->
  exists a', parseArguments a = parseArguments a' /\
    tokens a' = X /\ erase a' = erase c'.
Proof.
  remember (pending (self c)) as n eqn:Hn. revert c Hn.
  induction n as [n IH] using lt_wf_ind. intros c -> a c' Hc Her Htok.
  destruct (tokens c) as [|arg rest] eqn:H1.
  - rewrite parseArguments_done in Hc by done. injection Hc as <-.
    exists a. done.
  - rewrite (parseArguments_next _ _ _ H1) in Hc.
    simpl in Htok. rewrite (parseArguments_next _ _ _ Htok).
    pose proof (parseArguments_body_turn _ _ _ H1) as S1.
    pose proof (parseArguments_body_turn _ _ _ Htok) as S2.
    rewrite Her in S2.
    assert (m_curr_arg (self c) < length (m_argv (self c))) as Hlt.
    { apply tokens_cursor. by rewrite H1. }
    destruct (turn arg rest (erase c)) as [rest' s|e s] eqn:Ht.
    + rewrite (turn_app _ _ X _ _ _ Ht) in S2.
      destruct S1 as (c1 & Hb1 & T1 & E1), S2 as (a1 & Hb2 & T2 & E2).
      rewrite Hb1 in Hc. rewrite Hb2.
      eapply IH; [|done|exact Hc|congruence|congruence].
      by eapply (body_pending setValue setValue_frames).
    + destruct S1 as (c1 & Hb1 & E1). by rewrite Hb1 in Hc.
Qed.

Lemma turn_equal_sign opt v post s :
  find "=" opt = None ->
  turn (opt +:+ "=" +:+ v) post s = turn opt (v :: post) s.
Proof.
  intros H. unfold turn.
  by rewrite (split_equal_sign _ _ H), (split_no_equal_sign _ H).
Qed.

Lemma erase_said events w : erase (said events w) = said events (erase w).
Proof. done. Qed.

Lemma erase_fields w1 w2 :
  erase w1 = erase w2 ->
  m_options (self w1) = m_options (self w2) /\
  m_option_order (self w1) = m_option_order (self w2) /\
  m_options_map (self w1) = m_options_map (self w2) /\
  heap w1 = heap w2 /\ out w1 = out w2.
Proof. unfold erase, on_self. simpl. intros [=]. done. Qed.

Lemma parse_alike w1 w2 :
  2 <= length (m_argv (self w1)) -> 2 <= length (m_argv (self w2)) ->
  alike (parseArguments w1) (parseArguments w2) ->
  alike (parse w1) (parse w2).
Proof.
  intros H1 H2. unfold parse. rewrite !parse_cases. fold parseArguments.
  apply Nat.ltb_ge in H1, H2. rewrite H1, H2.
  destruct (parseArguments w1) as [[] a|e a], (parseArguments w2) as [[] b|e' b];
    simpl; try done.
  intros [_ He]. destruct (erase_fields _ _ He) as (Ho & Hord & _).
  rewrite <- Ho, <- Hord.
  destruct (list_find overrules _) as [[i o]|].
  { split; [done|]. by rewrite !erase_said, He. }
  destruct (list_find unmet _) as [[i o]|]; [done|].
  split; [done|]. by rewrite !erase_said, He.
Qed.

(** ** Options absent from the input *)

Lemma values_of_split arg option v :
  parseOptionWithEqualSign arg = (option, Some v) ->
  values_of arg = v :: values_of v.
Proof.
  unfold parseOptionWithEqualSign.
  destruct (find "=" arg) as [p|] eqn:F; [|done]. intros [= _ <-].
  revert p F. induction arg as [|a s IH]; intros p; simpl; [done|].
  destruct (Ascii.eqb a "=").
  - intros [= <-]. unfold substr_from. simpl. rewrite Nat.sub_0_r.
    by rewrite substring_0_all.
  - destruct (find "=" s) as [q|]; simpl; [|done]. intros [= <-].
    rewrite (IH q eq_refl). done.
Qed.

Lemma names_split arg option value :
  parseOptionWithEqualSign arg = (option, value) ->
  names arg = option :: match value with Some v => names v | None => [] end.
Proof.
  intros H. unfold names. simpl. rewrite H. simpl. f_equal.
  destruct value as [v|]; [by rewrite (values_of_split _ _ _ H)|].
  assert (find "=" arg = None) as F.
  { unfold parseOptionWithEqualSign in H. by destruct (find "=" arg). }
  clear H. induction arg as [|a s IH]; simpl in *; [done|].
  destruct (Ascii.eqb a "="); [done|]. simpl.
  destruct (find "=" s); [done|]. by rewrite IH.
Qed.

Lemma setValue_other idx' idx v w :
  idx' <> idx ->
  m_options (self (world (setValue idx' v w))) !! idx = m_options (self w) !! idx.
Proof.
  intros Hne. rewrite setValue_unfold.
  destruct (m_options (self w) !! idx') as [o|]; [|done]. simpl.
  destruct (TypeParser_Get (T o) v); simpl.
  - by rewrite list_lookup_alter_ne.
  - destruct (m_ref o); simpl; by rewrite !list_lookup_alter_ne.
Qed.

Lemma setValue_map idx v w :
  m_options_map (self (world (setValue idx v w))) = m_options_map (self w).
Proof. by destruct (setValue_scanned idx v w). Qed.

Lemma turn_absent idx s arg rest :
  Forall (fun token =>
    Forall (fun k => m_options_map (self s) !! k <> Some idx) (names token)) (arg :: rest) ->
  match turn arg rest s with
  | Turned rest' s' =>
      Forall (fun token =>
        Forall (fun k => m_options_map (self s') !! k <> Some idx) (names token)) rest' /\
      m_options (self s') !! idx = m_options (self s) !! idx
  | Raised e s' => m_options (self s') !! idx = m_options (self s) !! idx
  end.
Proof.
  intros Habs. apply Forall_cons in Habs as [Harg Hrest].
  unfold turn. destruct (parseOptionWithEqualSign arg) as [option value] eqn:Hs.
  rewrite (names_split _ _ _ Hs) in Harg. apply Forall_cons in Harg as [Hopt Hval].
  assert (Forall (fun token =>
    Forall (fun k => m_options_map (self s) !! k <> Some idx) (names token))
    (match value with Some v => v :: rest | None => rest end)) as Hfol.
  { destruct value; [by constructor | done]. }
  destruct (m_options_map (self s) !! option) as [idx'|] eqn:Hmap; [|done].
  assert (idx' <> idx) as Hne by congruence.
  destruct (m_options (self s) !! idx') as [o|]; [|done].
  destruct (Option.flag (base o)).
  - pose proof (setValue_other idx' idx "" s Hne) as H1.
    pose proof (setValue_map idx' "" s) as H2.
    destruct (setValue idx' "" s) as [[] s'|e s']; simpl in *; [|done].
    by rewrite H2.
  - destruct (match value with Some v => v :: rest | None => rest end) as [|f rest'];
      [done|].
    destruct (m_options_map (self s) !! f); [done|].
    pose proof (setValue_other idx' idx f s Hne) as H1.
    pose proof (setValue_map idx' f s) as H2.
    destruct (setValue idx' f s) as [[] s'|e s']; simpl in *; [|done].
    rewrite H2. split; [|done]. by apply Forall_cons in Hfol as [_ ?].
Qed.

(** The scan leaves alone a descriptor that no token resolves to. *)
Lemma parseArguments_absent idx w :
  absent idx w ->
  m_options (self (world (parseArguments w))) !! idx = m_options (self w) !! idx.
Proof.
  remember (pending (self w)) as n eqn:Hn. revert w Hn.
  induction n as [n IH] using lt_wf_ind. intros w -> Habs.
  destruct (tokens w) as [|arg rest] eqn:H1.
  - by rewrite parseArguments_done.
  - rewrite (parseArguments_next _ _ _ H1).
    pose proof (parseArguments_body_turn _ _ _ H1) as S1.
    unfold absent in Habs. rewrite H1 in Habs.
    pose proof (turn_absent idx (erase w) arg rest Habs) as HT.
    assert (m_curr_arg (self w) < length (m_argv (self w))) as Hlt.
    { apply tokens_cursor. by rewrite H1. }
    destruct (turn arg rest (erase w)) as [rest' s|e s].
    + destruct S1 as (w' & Hb & T1 & E1). rewrite Hb. destruct HT as [HA HO].
      subst s. rewrite !erase_options in HO. rewrite !erase_map in HA.
      rewrite <- HO. eapply IH; [|done|].
      * by eapply (body_pending setValue setValue_frames).
      * unfold absent. by rewrite T1.
    + destruct S1 as (w' & -> & E1). subst s. by rewrite !erase_options in HT.
Qed.

(** * The properties the specification states *)

(** ** C8: the built-in converters *)

(** C8.  The boolean converter never fails and returns true exactly on the
    empty string, "1" and "true", false on every other string; the string
    converter returns its input. *)
Theorem TypeParser_bool_string (s : string) :
  (Get (TypeParser := TypeParser_bool) s = inr true <->
     s = "" \/ s = "1" \/ s = "true") /\
  (Get (TypeParser := TypeParser_bool) s = inr false <->
     ~ (s = "" \/ s = "1" \/ s = "true")) /\
  Get (TypeParser := TypeParser_string) s = inr s.
Proof.
  unfold Get, TypeParser_bool, TypeParser_string.
  assert (empty s || String.eqb s "1" || String.eqb s "true" = true
          <-> s = "" \/ s = "1" \/ s = "true") as H.
  { rewrite !orb_true_iff, !String.eqb_eq.
    destruct s; simpl; intuition congruence. }
  split; [|split; [|done]].
  - rewrite <- H. split; congruence.
  - rewrite <- H. destruct (_ || _); split; intros; congruence.
Qed.

Example TypeParser_bool_samples :
  TypeParser_Get TBool "false" = inr (VBool false) /\
  TypeParser_Get TBool "0" = inr (VBool false) /\
  TypeParser_Get TBool "no" = inr (VBool false) /\
  TypeParser_Get TBool "TRUE" = inr (VBool false) /\
  TypeParser_Get TBool "true" = inr (VBool true) /\
  TypeParser_Get TBool "1" = inr (VBool true) /\
  TypeParser_Get TBool "" = inr (VBool true) /\
  TypeParser_Get TString "text" = inr (VString "text").
Proof. repeat split. Qed.

(** ** C3: an overruling option that is set short-circuits parse *)

(** C3.  When the scan has returned and left some descriptor both set and
    overruling, [parse] returns false after invoking one callback, that of
    the first such descriptor in declaration order; nothing else is added to
    the output and the required check is not run, whatever required options
    are missing. *)
Theorem overruling_short_circuits (w w1 : World) :
  2 <= length (m_argv (self w)) ->
  parseArguments w = Return tt w1 ->
  (exists i o, m_options (self w1) !! i = Some o /\ overrules o) ->
  exists idx o,
    m_options (self w1) !! idx = Some o /\ overrules o /\
    (forall j o', j < idx -> m_options (self w1) !! j = Some o' -> ~ overrules o') /\
    parse w = Return false (said (fired idx o) w1) /\
    out (said (fired idx o) w1) = out w ++ fired idx o.
Proof.
  intros Hlen Hscan (i & o & Hi & Ho).
  destruct (list_find_elem_of overrules (m_options (self w1)) o) as [[idx o'] Hfind];
    [by eapply list_elem_of_lookup_2 | done |].
  pose proof Hfind as (H1 & H2 & H3)%list_find_Some.
  exists idx, o'. split; [done|]. split; [done|]. split; [by eauto|].
  pose proof (parseArguments_scanned w) as (_ & Hout & _).
  unfold parse, parseArguments in *. rewrite parse_cases, Hscan, Hfind.
  rewrite Hscan in Hout. simpl in *. rewrite Hout.
  split; [|done]. destruct (_ <? 2) eqn:E; [|done]. apply Nat.ltb_lt in E. lia.
Qed.

Lemma overruling_short_circuits_witness :
  let w := declare ["prog"; "-v"] version_and_config in
  exists idx o,
    m_options (self w) !! 1 = Some o /\ unmet o /\
    parse w = Return false
      (said [Invoke idx (user_callback 0) (Some (VBool true))] (world (parseArguments w))).
Proof.
  intros w.
  destruct (overruling_short_circuits w (world (parseArguments w)))
    as (idx & o & H1 & H2 & H3 & H4 & H5).
  - vm_compute. lia.
  - vm_compute. reflexivity.
  - eexists 0, _. split; vm_compute; [reflexivity | exact I].
  - assert (idx = 0) as ->.
    { destruct idx as [|idx]; [done|]. exfalso.
      eapply (H3 0); [lia | vm_compute; reflexivity | exact I]. }
    injection H1 as <-.
    exists 0. eexists. split; [vm_compute; reflexivity|]. split; [exact I|]. exact H4.
Defined.

(** ** C1: positional options *)

Lemma unmatched_token_skipped w :
  m_options_map (self w) !!
    (parseOptionWithEqualSign (nth (m_curr_arg (self w)) (m_argv (self w)) "")).1 = None ->
  exists w', parseArguments_body w = Return tt w' /\
    m_options (self w') = m_options (self w) /\
    m_option_order (self w') = m_option_order (self w) /\
    heap w' = heap w.
Proof.
  intros H. unfold parseArguments_body. rewrite (body_unmatched _ _ H).
  eexists. split; [done|]. by destruct (parseOptionWithEqualSign _).2.
Qed.

(** C1 (the code against its tests and README).  [parseArguments] resolves a
    token through [m_options_map] only and skips a token that is no key:
    the descriptors [test/test_main.cpp] declares as positional keep their
    initial value, where the tests require the tokens. *)
Theorem positional_tokens_skipped :
  (let w := declare [""; "file.txt"] some_file in
   exists w', parse w = Return true w' /\ value 0 w' = Some (VString "")) /\
  (let w := declare [""; "fileIn.txt"; "-i1"; "1"; "fileOut.txt"; "-i2"; "2"]
              files_and_numbers in
   exists w', parse w = Return true w' /\
     value 0 w' = Some (VString "") /\ value 1 w' = Some (VString "") /\
     value 2 w' = Some (VInt 1) /\ value 3 w' = Some (VInt 2)).
Proof.
  split.
  - eexists. split; [vm_compute; reflexivity | reflexivity].
  - eexists. split; [vm_compute; reflexivity|]. repeat split.
Qed.

(** ** C9: the external storage binding *)

Lemma defaultValue_heap idx v w : heap (world (defaultValue idx v w)) = heap w.
Proof. done. Qed.

Lemma setValue_mirrors idx raw w o v l :
  m_options (self w) !! idx = Some o ->
  TypeParser_Get (T o) raw = inr v ->
  m_ref o = Some l ->
  exists w', setValue idx raw w = Return tt w' /\
    value idx w' = Some v /\ heap w' !! l = Some v.
Proof.
  intros Ho Hv Hl. rewrite setValue_unfold, Ho. simpl. rewrite Hv, Hl.
  eexists. split; [done|]. split.
  - unfold value. simpl. rewrite !list_lookup_alter_eq, Ho. done.
  - simpl. apply lookup_insert_eq.
Qed.

(** C9 (the code against the claim).  [setValue] writes the converted value
    through [m_ref]; [defaultValue] assigns [m_value] and does not: after
    [store] and then [defaultValue], the option holds the default and the
    bound storage was never written. *)
Theorem defaultValue_skips_store :
  let w := declare [] stored_with_default in
  (exists o, m_options (self w) !! 0 = Some o /\ m_ref o = Some 0) /\
  value 0 w = Some (VString "abc") /\
  heap w !! 0 = None.
Proof. split; [eexists; split; reflexivity|]. split; reflexivity. Qed.

(** ** C4: a valued option without its value *)

Lemma fails_turn w e w' :
  m_curr_arg (self w) < length (m_argv (self w)) ->
  parseArguments_body w = Throw e w' -> fails w e w'.
Proof.
  intros Hlt Hbody.
  assert (parseArguments w = Throw e w') as Hscan.
  { unfold parseArguments. rewrite (parseArguments_unfold _ setValue_frames).
    apply Nat.ltb_lt in Hlt. rewrite Hlt.
    fold parseArguments_body. by rewrite Hbody. }
  split; [done|]. split; [done|]. intros Hlen.
  unfold parse. rewrite parse_cases. fold parseArguments. rewrite Hscan.
  destruct (_ <? 2) eqn:E; [|done]. apply Nat.ltb_lt in E. lia.
Qed.

Section MissingArgument.
Variable w : World.
Let arg := nth (m_curr_arg (self w)) (m_argv (self w)) "".
Let w1 := advance (inject (parseOptionWithEqualSign arg).2 w).
Let following := nth (m_curr_arg (self w1)) (m_argv (self w1)) "".

(** C4, as the code has it.  The token under the cursor resolves to the
    valued descriptor [o].  If no token follows, the turn, the scan and
    [parse] raise [std::runtime_error("No more arguments.")] from
    [consume]; if the token that follows is a registered key, they raise
    the [ArgumentParserException] whose message names [o]. *)
Theorem missing_argument_cases (idx : nat) (o : OptionWrapper) :
  m_curr_arg (self w) < length (m_argv (self w)) ->
  m_options_map (self w) !! (parseOptionWithEqualSign arg).1 = Some idx ->
  m_options (self w) !! idx = Some o ->
  Option.flag (base o) = false ->
  (length (m_argv (self w1)) <= m_curr_arg (self w1) ->
     fails w (runtime_error "No more arguments.") w1) /\
  (m_curr_arg (self w1) < length (m_argv (self w1)) ->
   is_Some (m_options_map (self w) !! following) ->
     fails w (missing_argument o) w1 /\
     missing_argument o = ArgumentParserException
       ("Expected argument after '" +:+ Option.name (base o) +:+ "', but none given.")).
Proof.
  intros Hlt Hmap Hopt Hflag.
  pose proof (body_valued setValue w _ _ Hmap Hopt Hflag) as Hbody.
  fold parseArguments_body in Hbody. fold arg in Hbody. cbv zeta in Hbody.
  fold w1 in Hbody. fold following in Hbody.
  split.
  - intros Hend. apply fails_turn; [done|].
    apply Nat.leb_le in Hend. by rewrite Hbody, Hend.
  - intros Hnext [i Hkey]. split; [|done]. apply fails_turn; [done|].
    apply Nat.leb_gt in Hnext. by rewrite Hbody, Hnext, Hkey.
Qed.
End MissingArgument.

Lemma missing_argument_cases_witness :
  let w := declare ["prog"; "-c"; "-v"] version_and_config in
  parse w =
    Throw (ArgumentParserException "Expected argument after '-c (--cfg)', but none given.")
      (advance w).
Proof.
  intros w.
  assert (m_curr_arg (self w) < length (m_argv (self w))) as Hlt
    by (vm_compute; lia).
  destruct (missing_argument_cases w 1 _ Hlt eq_refl eq_refl eq_refl) as [_ H].
  destruct H as [(_ & _ & H) _].
  { vm_compute. lia. }
  { vm_compute. by eexists. }
  apply H. vm_compute. lia.
Defined.

(** C4, as stated, fails at the end of the input: the exception is the
    [std::runtime_error] of [consume], which is no [ArgumentParserException]
    and does not carry the name of the option. *)
Lemma missing_argument_at_end_of_input :
  let w := declare ["prog"; "-c"] version_and_config in
  (exists o, m_options_map (self w) !! "-c" = Some 1 /\
             m_options (self w) !! 1 = Some o /\
             Option.flag (base o) = false /\ Option.name (base o) = "-c (--cfg)") /\
  length (m_argv (self w)) = 2 /\
  parse w = Throw (runtime_error "No more arguments.") (advance w) /\
  ~ (exists o w', parse w = Throw (missing_argument o) w') /\
  ~ (exists what w', parse w = Throw (ArgumentParserException what) w').
Proof.
  intros w.
  assert (parse w = Throw (runtime_error "No more arguments.") (advance w)) as H
    by (vm_compute; reflexivity).
  split; [eexists; repeat split|]. split; [done|]. split; [done|].
  split.
  - intros (o & w' & H'). rewrite H in H'. discriminate.
  - intros (what & w' & H'). rewrite H in H'. discriminate.
Qed.

(** ** C7: registering keys *)

(** C7, as the code has it.  [option] appends the descriptor first.  With
    both keys empty it then raises; otherwise it returns the index of the
    new descriptor and maps each non-empty key to it, whether or not the key
    was registered before: every other key keeps its descriptor, and a key
    registered again silently moves to the new one. *)
Theorem option_registers (T : ValueType) (short long : string) (w : World) :
  let n := length (m_options (self w)) in
  let w1 := on_self (fun p => set_options
              (m_options p ++ [OptionWrapper_new T short long]) p) w in
  if empty short && empty long then
    option_ T short long w =
      Throw (ArgumentParserException
               "Short option and long option name cannot both be empty.") w1
  else
    exists w', option_ T short long w = Return n w' /\
      m_options (self w') = m_options (self w) ++ [OptionWrapper_new T short long] /\
      forall k, m_options_map (self w') !! k =
        if decide (k <> "" /\ (k = short \/ k = long)) then Some n
        else m_options_map (self w) !! k.
Proof.
  intros n w1. unfold option_. run.
  destruct short as [|a short], long as [|b long]; simpl.
  - done.
  - eexists. rewrite length_app, Nat.add_sub. split; [done|]. split; [done|].
    intros k. simpl. rewrite lookup_insert. repeat case_decide; intuition congruence.
  - eexists. rewrite length_app, Nat.add_sub. split; [done|]. split; [done|].
    intros k. simpl. rewrite lookup_insert. repeat case_decide; intuition congruence.
  - eexists. rewrite length_app, Nat.add_sub. split; [done|]. split; [done|].
    intros k. simpl. rewrite !lookup_insert. repeat case_decide; intuition congruence.
Qed.

(** C7, as stated, fails: registering ["-a"] a second time raises nothing
    and moves the key to the second descriptor. *)
Lemma duplicate_key_accepted :
  exists w', twice (World_new []) = Return 1 w' /\
    length (m_options (self w')) = 2 /\
    m_options_map (self w') !! "-a" = Some 1 /\
    m_options_map (self w') !! "--all" = Some 0.
Proof. eexists. split; [vm_compute; reflexivity|]. repeat split. Qed.

(** ** C2: [--opt=v] and [--opt v] *)

Lemma alike_value {A : Type} (r1 r2 : outcome A) idx :
  alike r1 r2 -> value idx (world r1) = value idx (world r2).
Proof.
  destruct r1, r2; simpl; try done; intros [_ He];
    destruct (erase_fields _ _ He) as (Ho & _); unfold value; by rewrite Ho.
Qed.

Lemma tokens_with_argv pre X w :
  m_curr_arg (self w) <= length pre ->
  tokens (with_argv (pre ++ X) w) = tokens (with_argv pre w) ++ X.
Proof. intros H. unfold tokens. simpl. by apply drop_app_le. Qed.

(** [parseOptionWithEqualSign] cuts at the first equal sign: the option part
    holds none, and the token is the two parts around one equal sign. *)
Lemma parseOptionWithEqualSign_first arg option v :
  parseOptionWithEqualSign arg = (option, Some v) ->
  find "=" option = None /\ arg = option +:+ "=" +:+ v.
Proof.
  unfold parseOptionWithEqualSign.
  destruct (find "=" arg) as [p|] eqn:F; [|done]. intros [= <- <-].
  revert p F. induction arg as [|a s IH]; intros p; simpl; [done|].
  destruct (Ascii.eqb a "=") eqn:E.
  - intros [= <-]. apply Ascii.eqb_eq in E as ->.
    unfold substr, substr_from. simpl. rewrite Nat.sub_0_r.
    by rewrite substring_0_all.
  - destruct (find "=" s) as [q|]; simpl; [|done]. intros [= <-].
    destruct (IH q eq_refl) as [H1 H2]. unfold substr, substr_from in *. simpl.
    rewrite E, H1. split; [done|]. by rewrite H2 at 1.
Qed.

(** The value of an [option=value] token is the next token of the scan. *)
Lemma value_reinjected w v :
  m_curr_arg (self w) < length (m_argv (self w)) ->
  m_argv (self (inject (Some v) w)) !! (m_curr_arg (self w) + 1) = Some v /\
  length (m_argv (self (inject (Some v) w))) = S (length (m_argv (self w))) /\
  tokens (advance (inject (Some v) w)) = v :: tokens (advance w).
Proof.
  intros H. split; [|split].
  - simpl. unfold vector_insert. rewrite lookup_app_r; rewrite length_take; [|lia].
    by replace (m_curr_arg (self w) + 1 - _) with 0 by lia.
  - simpl. unfold vector_insert. rewrite length_app. simpl.
    rewrite length_take, length_drop. lia.
  - rewrite (tokens_turn w (Some v) H). unfold tokens. simpl. by rewrite Nat.add_1_r.
Qed.

(** C2.  Let the tokens before some position be a command line the scan
    accepts by itself, and let [opt] hold no equal sign.  Then [parse] ends
    the same way on the vector with the one token [opt=v] at that position
    and on the vector with the two tokens [opt] and [v] there: the same
    result or the same exception, and the same descriptors, invocation
    order, caller storage and output; in particular every option holds the
    same value.  The combined token is split at its first equal sign. *)
Theorem equal_sign_as_two_tokens (w wp : World) (pre post : list string)
    (opt v : string) :
  find "=" opt = None ->
  1 <= length pre ->
  m_curr_arg (self w) <= length pre ->
  parseArguments (with_argv pre w) = Return tt wp ->
  let r1 := parse (with_argv (pre ++ (opt +:+ "=" +:+ v) :: post) w) in
  let r2 := parse (with_argv (pre ++ opt :: v :: post) w) in
  parseOptionWithEqualSign (opt +:+ "=" +:+ v) = (opt, Some v) /\
  alike r1 r2 /\
  forall idx, value idx (world r1) = value idx (world r2).
Proof.
  intros Hopt Hpre Hcur Hscan r1 r2.
  split; [by apply split_equal_sign|].
  assert (alike r1 r2) as Hr; [|split; [done|]; intros; by apply alike_value].
  subst r1 r2. apply parse_alike.
  { simpl. rewrite length_app. simpl. lia. }
  { simpl. rewrite length_app. simpl. lia. }
  destruct (parseArguments_prefix ((opt +:+ "=" +:+ v) :: post) _
              (with_argv (pre ++ (opt +:+ "=" +:+ v) :: post) w) _ Hscan)
    as (a & -> & Ta & Ea); [done | by apply tokens_with_argv |].
  destruct (parseArguments_prefix (opt :: v :: post) _
              (with_argv (pre ++ opt :: v :: post) w) _ Hscan)
    as (b & -> & Tb & Eb); [done | by apply tokens_with_argv |].
  rewrite (parseArguments_next _ _ _ Ta), (parseArguments_next _ _ _ Tb).
  pose proof (parseArguments_body_turn _ _ _ Ta) as Sa.
  pose proof (parseArguments_body_turn _ _ _ Tb) as Sb.
  rewrite (turn_equal_sign _ _ _ _ Hopt), Ea in Sa. rewrite Eb in Sb.
  destruct (turn opt (v :: post) (erase wp)) as [rest s|e s].
  - destruct Sa as (a1 & -> & T1 & E1), Sb as (b1 & -> & T2 & E2).
    apply parseArguments_alike; congruence.
  - destruct Sa as (a1 & -> & E1), Sb as (b1 & -> & E2). split; congruence.
Qed.

Lemma equal_sign_as_two_tokens_witness :
  let w := declare [] version_and_config in
  alike (parse (with_argv ["prog"; "-c=config.json"; "x"] w))
        (parse (with_argv ["prog"; "-c"; "config.json"; "x"] w)) /\
  value 1 (world (parse (with_argv ["prog"; "-c=config.json"; "x"] w))) =
    Some (VString "config.json").
Proof.
  intros w. split.
  - refine (proj1 (proj2 (equal_sign_as_two_tokens w
      (world (parseArguments (with_argv ["prog"] w))) ["prog"] ["x"] "-c" "config.json"
      _ _ _ _))).
    + reflexivity.
    + simpl. lia.
    + simpl. lia.
    + vm_compute. reflexivity.
  - vm_compute. reflexivity.
Defined.

(** ** C5: a required option absent from the input *)

Lemma parse_options idx w :
  absent idx w ->
  m_options (self (world (parse w))) !! idx = m_options (self w) !! idx.
Proof.
  intros Habs. pose proof (parseArguments_absent idx w Habs) as H.
  unfold parse. rewrite parse_cases. fold parseArguments.
  destruct (_ <? 2); [done|].
  destruct (parseArguments w) as [[] w1|e w1]; simpl in *; [|done].
  destruct (list_find overrules _) as [[i o]|]; [done|].
  by destruct (list_find unmet _) as [[i o]|].
Qed.

Lemma parse_true w w' :
  parse w = Return true w' ->
  exists w1, 2 <= length (m_argv (self w)) /\
    parseArguments w = Return tt w1 /\
    list_find overrules (m_options (self w1)) = None /\
    list_find unmet (m_options (self w1)) = None.
Proof.
  unfold parse. rewrite parse_cases. fold parseArguments.
  destruct (_ <? 2) eqn:E; [done|]. apply Nat.ltb_ge in E.
  destruct (parseArguments w) as [[] w1|e w1]; [|done].
  destruct (list_find overrules _) as [[i o]|] eqn:F1; [done|].
  destruct (list_find unmet _) as [[i o]|] eqn:F2; [done|].
  intros _. by exists w1.
Qed.

(** C5, as the code has it.  Let descriptor [idx] be required, not set, and
    absent from the input.  Then [parse] never returns true; and when the
    vector has two entries or more, the scan returns and no set overruling
    descriptor short-circuits, it raises the missing-required exception of
    the first required descriptor that is not set.  Once [defaultValue] has
    given the descriptor a value, the descriptor holds that value after
    [parse], however [parse] ends; and [parse] returns true when the vector
    has two entries or more, the scan returns, no descriptor is set and
    overruling and every other required descriptor is set. *)
Theorem required_option_absent (w : World) (idx : nat) (o : OptionWrapper) :
  m_options (self w) !! idx = Some o ->
  Option.required (base o) = true ->
  Option.set (base o) = false ->
  absent idx w ->
  (forall w', parse w <> Return true w') /\
  (forall w1,
     2 <= length (m_argv (self w)) ->
     parseArguments w = Return tt w1 ->
     list_find overrules (m_options (self w1)) = None ->
     exists j oj, j <= idx /\
       list_find unmet (m_options (self w1)) = Some (j, oj) /\
       parse w = Throw (required_missing oj) w1) /\
  (forall v,
     let wd := world (defaultValue idx v w) in
     value idx (world (parse wd)) = Some v /\
     forall w1,
       2 <= length (m_argv (self wd)) ->
       parseArguments wd = Return tt w1 ->
       list_find overrules (m_options (self w1)) = None ->
       (forall j oj, j <> idx -> m_options (self w1) !! j = Some oj -> ~ unmet oj) ->
       parse wd =
         Return true (said (dispatched (m_options (self w1)) (m_option_order (self w1))) w1)).
Proof.
  intros Hopt Hreq Hset Habs.
  assert (unmet o) as Hunmet by (unfold unmet; by rewrite Hreq, Hset).
  assert (forall w1, parseArguments w = Return tt w1 ->
            exists j oj, j <= idx /\ list_find unmet (m_options (self w1)) = Some (j, oj))
    as Hfind.
  { intros w1 Hscan. pose proof (parseArguments_absent idx w Habs) as H.
    rewrite Hscan, Hopt in H. simpl in H.
    destruct (list_find_elem_of unmet (m_options (self w1)) o) as [[j oj] Hj];
      [by eapply list_elem_of_lookup_2 | done |].
    exists j, oj. split; [|done].
    apply list_find_Some in Hj as (_ & _ & Hmin).
    destruct (decide (j <= idx)); [done|]. exfalso.
    eapply (Hmin idx o); [done | lia | done]. }
  split; [|split].
  - intros w' (w1 & _ & Hscan & _ & Hnone)%parse_true.
    destruct (Hfind w1 Hscan) as (j & oj & _ & Hj). congruence.
  - intros w1 Hlen Hscan Hover.
    destruct (Hfind w1 Hscan) as (j & oj & Hle & Hj). exists j, oj.
    split; [done|]. split; [done|].
    unfold parse. rewrite parse_cases. fold parseArguments.
    apply Nat.ltb_ge in Hlen. by rewrite Hlen, Hscan, Hover, Hj.
  - intros v wd.
    assert (m_options (self wd) !! idx =
            Some (with_value v (with_base mark_default o))) as Hd.
    { subst wd. simpl. by rewrite list_lookup_alter_eq, Hopt. }
    assert (absent idx wd) as Habsd by done.
    split.
    + unfold value. by rewrite (parse_options idx wd Habsd), Hd.
    + intros w1 Hlen Hscan Hover Hothers.
      unfold parse. rewrite parse_cases. fold parseArguments.
      apply Nat.ltb_ge in Hlen. rewrite Hlen, Hscan, Hover.
      pose proof (parseArguments_absent idx wd Habsd) as H.
      rewrite Hscan, Hd in H. simpl in H.
      destruct (list_find unmet (m_options (self w1))) as [[j oj]|] eqn:Hj; [|done].
      exfalso. apply list_find_Some in Hj as (Hj & Hu & _).
      destruct (decide (j = idx)) as [->|Hne].
      * rewrite H in Hj. injection Hj as <-.
        unfold unmet in Hu. simpl in Hu. by rewrite andb_false_r in Hu.
      * by eapply Hothers.
Qed.

Lemma required_option_absent_witness :
  let w := declare ["prog"; "-x"; "something"] required_without_default in
  (exists oj, parse w = Throw (required_missing oj) (world (parseArguments w)) /\
     required_missing oj = ArgumentParserException "Option ' (-a)' is required.") /\
  (let wd := world (defaultValue 0 (VString "abc") w) in
   value 0 (world (parse wd)) = Some (VString "abc") /\
   exists w', parse wd = Return true w').
Proof.
  intros w.
  assert (absent 0 w) as Habs.
  { unfold absent. vm_compute tokens.
    repeat (constructor; try (vm_compute; discriminate)). }
  destruct (required_option_absent w 0
              (with_base (with_required true) (OptionWrapper_new TString "" "-a")))
    as (_ & H2 & H3); [reflexivity..|exact Habs|].
  split.
  - destruct (H2 (world (parseArguments w))) as (j & oj & Hj & Hf & Hp).
    + vm_compute. lia.
    + vm_compute. reflexivity.
    + vm_compute. reflexivity.
    + exists oj. split; [exact Hp|].
      vm_compute in Hf. injection Hf as <- <-. reflexivity.
  - destruct (H3 (VString "abc")) as [Hv Hs]. split; [exact Hv|].
    eexists. apply Hs.
    + vm_compute. lia.
    + vm_compute. reflexivity.
    + vm_compute. reflexivity.
    + intros [|j] oj Hne; [done|]. vm_compute. destruct j; discriminate.
Defined.

(** C5, as stated, fails on a vector that holds the program name only:
    [parse] prints the help and returns false. With a default value it does
    not report success, and without one it raises nothing. *)
Lemma required_option_without_arguments :
  (let w := declare ["prog"] required_with_default in
   (exists o, m_options (self w) !! 0 = Some o /\ Option.required (base o) = true /\
      Option.has_default_value (base o) = true /\ m_value o = Some (VString "abc")) /\
   absent 0 w /\
   parse w = Return false (said [Help] w)) /\
  (let w := declare ["prog"] required_without_default in
   (exists o, m_options (self w) !! 0 = Some o /\ Option.required (base o) = true /\
      Option.has_default_value (base o) = false /\ Option.set (base o) = false) /\
   absent 0 w /\
   parse w = Return false (said [Help] w)).
Proof.
  split; intros w.
  - split; [eexists; repeat split|]. split; [constructor|]. vm_compute. reflexivity.
  - split; [eexists; repeat split|]. split; [constructor|]. vm_compute. reflexivity.
Qed.

(** ** C10: an overruling option with a default value *)

Lemma scanned_overrules w w1 idx o :
  scanned w w1 ->
  m_options (self w) !! idx = Some o -> overrules o ->
  exists o1, m_options (self w1) !! idx = Some o1 /\ overrules o1 /\
    declared o1 = declared o.
Proof.
  intros (_ & _ & Hall) Ho Hov.
  destruct (Forall2_lookup_l _ _ _ _ _ Hall Ho) as (o1 & H1 & Hd & Hs).
  exists o1. split; [done|]. split; [|done].
  unfold overrules in *. apply andb_prop_elim in Hov as [Hset Hovr].
  apply andb_prop_intro. split; [by apply Hs|].
  assert (Option.overruling (base o1) = Option.overruling (base o)) as ->; [|done].
  by injection Hd.
Qed.

(** C10, as the code has it.  [defaultValue] marks the descriptor as set
    when it is called, before any [parse].  If the descriptor is overruling
    as well, every [parse] on a vector of two entries or more whose scan
    returns, returns false after invoking one callback, whatever the tokens
    are: that of the first descriptor in declaration order that is set and
    overruling after the scan, which is this descriptor unless an earlier
    one is. *)
Theorem default_marks_set_and_overrules (w0 : World) (idx : nat)
    (o : OptionWrapper) (v : Value) :
  m_options (self w0) !! idx = Some o ->
  Option.overruling (base o) = true ->
  let w := world (defaultValue idx v w0) in
  (exists o', m_options (self w) !! idx = Some o' /\
     Option.set (base o') = true /\ Option.has_default_value (base o') = true /\
     m_value o' = Some v) /\
  forall w1,
    2 <= length (m_argv (self w)) ->
    parseArguments w = Return tt w1 ->
    exists j oj, j <= idx /\
      list_find overrules (m_options (self w1)) = Some (j, oj) /\
      (j = idx -> m_callback oj = m_callback o) /\
      parse w = Return false (said (fired j oj) w1) /\
      out (said (fired j oj) w1) = out w0 ++ fired j oj.
Proof.
  intros Hopt Hovr w.
  assert (m_options (self w) !! idx =
          Some (with_value v (with_base mark_default o))) as Hd.
  { subst w. simpl. by rewrite list_lookup_alter_eq, Hopt. }
  split; [by eexists|].
  intros w1 Hlen Hscan.
  pose proof (parseArguments_scanned w) as Hsc. rewrite Hscan in Hsc. simpl in Hsc.
  destruct (scanned_overrules w w1 idx _ Hsc Hd) as (o1 & H1 & Hov1 & Hdecl).
  { unfold overrules. simpl. by rewrite Hovr. }
  destruct (list_find_elem_of overrules (m_options (self w1)) o1) as [[j oj] Hj];
    [by eapply list_elem_of_lookup_2 | done |].
  exists j, oj.
  pose proof Hj as (Hjo & _ & Hmin)%list_find_Some.
  split.
  { destruct (decide (j <= idx)); [done|]. exfalso.
    eapply (Hmin idx o1); [done | lia | done]. }
  split; [done|]. split.
  { intros ->. rewrite H1 in Hjo. injection Hjo as <-. by injection Hdecl. }
  unfold parse. rewrite parse_cases. fold parseArguments.
  apply Nat.ltb_ge in Hlen. rewrite Hlen, Hscan, Hj.
  split; [done|]. simpl. destruct Hsc as (_ & -> & _). done.
Qed.

Lemma default_marks_set_and_overrules_witness :
  let w := world (defaultValue 1 (VBool true)
                    (declare ["prog"; "-c"; "config.json"] config_and_version)) in
  exists w1, parse w = Return false w1 /\
    out w1 = [Invoke 1 (user_callback 0) (Some (VBool true))].
Proof.
  intros w.
  destruct (default_marks_set_and_overrules
              (declare ["prog"; "-c"; "config.json"] config_and_version) 1
              {| base := mark_overruling (Option.new "-v" "--version"); T := TBool;
                 m_callback := user_callback 0; m_value := None; m_ref := None |}
              (VBool true)) as (_ & H).
  - vm_compute. reflexivity.
  - reflexivity.
  - destruct (H (world (parseArguments w))) as (j & oj & Hj & Hf & _ & Hp & Ho).
    + vm_compute. lia.
    + vm_compute. reflexivity.
    + vm_compute in Hf. injection Hf as <- <-.
      eexists. split; [exact Hp | exact Ho].
Defined.

(** C10, as stated, fails when the scan raises: with a valued option last
    in the vector, [parse] raises from [consume], returns nothing and
    invokes no callback, although the overruling option has its default. *)
Lemma default_overruling_scan_raises :
  let w := declare ["prog"; "-c"] overruling_with_default in
  (exists o, m_options (self w) !! 0 = Some o /\ overrules o /\
     Option.has_default_value (base o) = true) /\
  length (m_argv (self w)) = 2 /\
  parse w = Throw (runtime_error "No more arguments.") (advance w) /\
  out (advance w) = [] /\
  ~ (exists w', parse w = Return false w').
Proof.
  intros w.
  assert (parse w = Throw (runtime_error "No more arguments.") (advance w)) as H
    by (vm_compute; reflexivity).
  split; [eexists; repeat split|]. split; [done|]. split; [done|]. split; [done|].
  intros (w' & H'). rewrite H in H'. discriminate.
Qed.

(** ** C6: choice sets *)

Lemma Choices_setValue_frames table message :
  frames (Choices.setValue table message).
Proof.
  intros idx v w. unfold Choices.setValue. run.
  destruct (m_options (self w) !! idx) as [o|]; [|apply setValue_frames].
  destruct (_ || _); [apply setValue_frames | done].
Qed.

Section ChoiceSets.
Variable table : gmap nat (list string).
Variable message : OptionWrapper -> string -> string.
Variable w : World.
Let arg := nth (m_curr_arg (self w)) (m_argv (self w)) "".
Let w1 := advance (inject (parseOptionWithEqualSign arg).2 w).
Let v := nth (m_curr_arg (self w1)) (m_argv (self w1)) "".

(** C6, on the spec's choice sets.  The token under the cursor resolves
    to the valued descriptor [o], which has a choice set that is not
    empty, and the raw value [v] follows it.  If [v] is outside the set,
    the turn, the scan and [parse] raise the invalid-choice error and the
    descriptor is as it was.  If [v] is inside, the turn assigns as
    [Option::setValue] does: it returns, and a string option then holds
    [v] and is set. *)
Theorem choice_set_validated (idx : nat) (o : OptionWrapper) :
  m_curr_arg (self w) < length (m_argv (self w)) ->
  m_options_map (self w) !! (parseOptionWithEqualSign arg).1 = Some idx ->
  m_options (self w) !! idx = Some o ->
  Option.flag (base o) = false ->
  m_curr_arg (self w1) < length (m_argv (self w1)) ->
  m_options_map (self w) !! v = None ->
  Choices.choiceSet table idx <> [] ->
  (v ∉ Choices.choiceSet table idx ->
     let e := Choices.InvalidChoiceError message o v in
     Choices.parseArguments_body table message w = Throw e w1 /\
     Choices.parseArguments table message w = Throw e w1 /\
     (2 <= length (m_argv (self w)) -> Choices.parse table message w = Throw e w1) /\
     m_options (self w1) !! idx = Some o) /\
  (v ∈ Choices.choiceSet table idx ->
     Choices.parseArguments_body table message w = parseArguments_body w /\
     (T o = TString ->
      exists w', Choices.parseArguments_body table message w = Return tt w' /\
        value idx w' = Some (VString v) /\
        exists o', m_options (self w') !! idx = Some o' /\
                   Option.set (base o') = true)).
Proof.
  intros Hlt Hmap Hopt Hflag Hnext Hkey Hset.
  assert (m_options (self w1) !! idx = Some o) as Hopt1.
  { subst w1. by destruct (parseOptionWithEqualSign arg).2. }
  assert (forall assign, Virtual.parseArguments_body assign w =
            match assign idx v w1 with
            | Return _ w' => Return tt (advance (recorded idx w'))
            | Throw e w' => Throw e w'
            end) as Hbody.
  { intros assign. rewrite (body_valued _ _ _ _ Hmap Hopt Hflag).
    fold arg. cbv zeta. fold w1. fold v.
    apply Nat.leb_gt in Hnext. by rewrite Hnext, Hkey. }
  clearbody v. clearbody w1. clearbody arg.
  split.
  - intros Hout e.
    assert (Choices.parseArguments_body table message w = Throw e w1) as Hb.
    { unfold Choices.parseArguments_body. rewrite Hbody.
      unfold Choices.setValue. run. rewrite Hopt1, Hflag.
      rewrite bool_decide_eq_false_2 by done.
      by rewrite bool_decide_eq_false_2 by done. }
    assert (Choices.parseArguments table message w = Throw e w1) as Hs.
    { unfold Choices.parseArguments.
      rewrite (parseArguments_unfold _ (Choices_setValue_frames table message)).
      apply Nat.ltb_lt in Hlt. rewrite Hlt.
      fold (Choices.parseArguments_body table message). by rewrite Hb. }
    split; [done|]. split; [done|]. split; [|done].
    intros Hlen. unfold Choices.parse. rewrite parse_cases.
    fold (Choices.parseArguments table message). rewrite Hs.
    destruct (_ <? 2) eqn:E; [|done]. apply Nat.ltb_lt in E. lia.
  - intros Hin.
    assert (Choices.setValue table message idx v w1 = setValue idx v w1) as Heq.
    { unfold Choices.setValue. run. rewrite Hopt1, Hflag.
      rewrite (bool_decide_eq_true_2 (v ∈ _)) by done.
      by rewrite orb_true_r. }
    assert (Choices.parseArguments_body table message w = parseArguments_body w) as Hb.
    { unfold Choices.parseArguments_body, parseArguments_body.
      by rewrite !Hbody, Heq. }
    split; [done|]. intros HT. rewrite Hb. unfold parseArguments_body.
    rewrite Hbody, setValue_unfold, Hopt1. simpl. rewrite HT. simpl.
    destruct (m_ref o); eexists; (split; [done|]); unfold value; simpl;
      rewrite !list_lookup_alter_eq, Hopt1; simpl; (split; [done|]);
      by eexists.
Qed.
End ChoiceSets.

Lemma choice_set_validated_witness :
  let message := fun (_ : OptionWrapper) value => "Invalid choice '" +:+ value +:+ "'." in
  (let w := declare [""; "--option=value2"; "-a"] option_and_flag in
   exists w', Choices.parse value_or_value1 message w =
     Throw (ArgumentParserException "Invalid choice 'value2'.") w') /\
  (let w := declare [""; "--option=value"; "-a"] option_and_flag in
   exists w', Choices.parseArguments_body value_or_value1 message w = Return tt w' /\
     value 0 w' = Some (VString "value")).
Proof.
  intros message.
  assert (forall w : World, m_curr_arg (self w) = 1 -> length (m_argv (self w)) = 3 ->
            m_curr_arg (self w) < length (m_argv (self w))) as Hlt
    by (intros w -> ->; lia).
  split; intros w.
  - destruct (choice_set_validated value_or_value1 message w 0 _
                (Hlt w eq_refl eq_refl) eq_refl eq_refl eq_refl) as [H _].
    { vm_compute. lia. }
    { reflexivity. }
    { vm_compute. discriminate. }
    destruct H as (_ & _ & H & _).
    { vm_compute. intros H. repeat (apply elem_of_cons in H as [H|H]; [discriminate|]).
      by apply elem_of_nil in H. }
    eexists. apply H. vm_compute. lia.
  - destruct (choice_set_validated value_or_value1 message w 0 _
                (Hlt w eq_refl eq_refl) eq_refl eq_refl eq_refl) as [_ H].
    { vm_compute. lia. }
    { reflexivity. }
    { vm_compute. discriminate. }
    destruct H as (_ & H).
    { vm_compute. apply elem_of_cons. by left. }
    destruct (H eq_refl) as (w' & Hb & Hv & _). by exists w'.
Defined.

(** * More of the parser *)

(** ** Tokens that are no keys *)

Lemma turn_unknown s arg rest :
  Forall (fun token =>
    Forall (fun k => m_options_map (self s) !! k = None) (names token)) (arg :: rest) ->
  exists rest', turn arg rest s = Turned rest' s /\
    Forall (fun token =>
      Forall (fun k => m_options_map (self s) !! k = None) (names token)) rest'.
Proof.
  intros [Harg Hrest]%Forall_cons. unfold turn.
  destruct (parseOptionWithEqualSign arg) as [option value] eqn:Hs.
  rewrite (names_split _ _ _ Hs) in Harg. apply Forall_cons in Harg as [-> Hval].
  eexists. split; [done|]. destruct value; [by constructor | done].
Qed.

(** X1.  When no token left, and no value behind an equal sign of one, is a
    registered key, the scan returns at the end of the vector and has
    changed no descriptor, no storage, no invocation record and printed
    nothing: tokens that are no keys are skipped without an error. *)
Theorem unknown_tokens_skipped (w : World) :
  unknown w ->
  exists w', parseArguments w = Return tt w' /\
    erase w' = erase w /\ tokens w' = [].
Proof.
  remember (pending (self w)) as n eqn:Hn. revert w Hn.
  induction n as [n IH] using lt_wf_ind. intros w -> Hun.
  destruct (tokens w) as [|arg rest] eqn:H1.
  - rewrite parseArguments_done by done. by exists w.
  - rewrite (parseArguments_next _ _ _ H1).
    pose proof (parseArguments_body_turn _ _ _ H1) as S1.
    unfold unknown in Hun. rewrite H1 in Hun.
    destruct (turn_unknown (erase w) arg rest Hun) as (rest' & Ht & Hrest').
    rewrite Ht in S1. destruct S1 as (w' & Hb & T1 & E1). rewrite Hb.
    assert (m_curr_arg (self w) < length (m_argv (self w))) as Hlt.
    { apply tokens_cursor. by rewrite H1. }
    destruct (IH (pending (self w'))) with (w := w') as (w2 & H2 & E2 & T2).
    + by eapply (body_pending setValue setValue_frames).
    + done.
    + unfold unknown. rewrite T1.
      assert (m_options_map (self w') = m_options_map (self w)) as ->; [|done].
      by destruct (erase_fields _ _ E1) as (_ & _ & ? & _).
    + exists w2. split; [done|]. split; [congruence | done].
Qed.

Lemma unknown_tokens_skipped_witness :
  let w := declare ["prog"; "x=y=-z"; "hello"; "--cfg2"] version_and_config in
  exists w', parse w = Throw (required_missing
      (with_base (with_required true) (OptionWrapper_new TString "-c" "--cfg")))
    w' /\ m_options (self w') = m_options (self w) /\ heap w' = heap w.
Proof.
  intros w.
  destruct (unknown_tokens_skipped w) as (w' & Hs & He & Ht).
  { unfold unknown. vm_compute tokens.
    repeat (constructor; try (vm_compute; reflexivity)). }
  destruct (erase_fields _ _ He) as (Ho & _ & _ & Hh & _).
  exists w'. split; [|done].
  unfold parse. rewrite parse_cases. fold parseArguments. rewrite Hs, Ho.
  vm_compute. reflexivity.
Defined.

(** ** What a matched token does *)

Lemma setValue_success idx raw w o x :
  m_options (self w) !! idx = Some o ->
  TypeParser_Get (T o) raw = inr x ->
  exists w', setValue idx raw w = Return tt w' /\
    m_options (self w') =
      alter (with_value x) idx (alter (with_base mark_set) idx (m_options (self w))) /\
    heap w' = match m_ref o with Some l => <[l := x]> (heap w) | None => heap w end /\
    m_argv (self w') = m_argv (self w) /\ m_curr_arg (self w') = m_curr_arg (self w) /\
    m_option_order (self w') = m_option_order (self w) /\ out w' = out w /\
    m_options_map (self w') = m_options_map (self w).
Proof.
  intros Ho Hx. rewrite setValue_unfold, Ho. simpl. rewrite Hx.
  destruct (m_ref o); eexists; (split; [done|]); done.
Qed.

Lemma lookup_assigned idx x (l : list OptionWrapper) o :
  l !! idx = Some o ->
  alter (with_value x) idx (alter (with_base mark_set) idx l) !! idx =
    Some (with_value x (with_base mark_set o)).
Proof. intros H. by rewrite !list_lookup_alter_eq, H. Qed.

Lemma tokens_first w v :
  tokens w !! 0 = Some v ->
  m_curr_arg (self w) < length (m_argv (self w)) /\
  nth (m_curr_arg (self w)) (m_argv (self w)) "" = v.
Proof.
  intros H. rewrite tokens_head. split.
  - apply tokens_cursor. by destruct (tokens w).
  - destruct (tokens w); [done|]. by injection H.
Qed.

Section Matched.
Variable w : World.
Let arg := nth (m_curr_arg (self w)) (m_argv (self w)) "".
Let rest := drop (S (m_curr_arg (self w))) (m_argv (self w)).

(** X2.  A token whose option part is the key of a flag sets the flag to
    the conversion of the empty string (true for a [bool]), writes it to
    the bound storage, records the invocation and consumes nothing: the
    next token of the scan is the one that follows, or, for a token
    [flag=value], the value, which is scanned as a token of its own. *)
Theorem flag_token_sets (idx : nat) (o : OptionWrapper) (x : Value) :
  m_curr_arg (self w) < length (m_argv (self w)) ->
  m_options_map (self w) !! (parseOptionWithEqualSign arg).1 = Some idx ->
  m_options (self w) !! idx = Some o ->
  Option.flag (base o) = true ->
  TypeParser_Get (T o) "" = inr x ->
  exists w', parseArguments_body w = Return tt w' /\
    m_options (self w') !! idx = Some (with_value x (with_base mark_set o)) /\
    (forall j, j <> idx -> m_options (self w') !! j = m_options (self w) !! j) /\
    heap w' = match m_ref o with Some l => <[l := x]> (heap w) | None => heap w end /\
    m_option_order (self w') = m_option_order (self w) ++ [idx] /\
    tokens w' = match (parseOptionWithEqualSign arg).2 with
                | Some v => v :: rest
                | None => rest
                end.
Proof.
  intros Hlt Hmap Hopt Hflag Hx.
  unfold parseArguments_body. rewrite (body_flag _ _ _ _ Hmap Hopt Hflag).
  fold arg. set (value := (parseOptionWithEqualSign arg).2).
  assert (m_options (self (inject value w)) !! idx = Some o) as Ho1
    by (by destruct value).
  destruct (setValue_success idx "" (inject value w) o x Ho1 Hx)
    as (w2 & -> & Hopts & Hheap & Hargv & Hcur & Hord & _).
  eexists. split; [done|]. simpl.
  assert (m_options (self (inject value w)) = m_options (self w)) as Hi
    by (by destruct value).
  rewrite Hopts, Hi. split; [by apply lookup_assigned|]. split.
  { intros j Hj. by rewrite !list_lookup_alter_ne. }
  split. { rewrite Hheap. by destruct value. }
  split. { rewrite Hord. by destruct value. }
  pose proof (tokens_turn w value Hlt) as Ht. unfold tokens in *. simpl in *.
  by rewrite Hargv, Hcur.
Qed.

(** X3.  A token whose option part is the key of a valued option, followed
    by a token that is no registered key and that converts, stores the
    converted value in the descriptor, whatever it held, marks it set,
    writes the value to the bound storage, records the invocation and
    consumes both tokens. *)
Theorem valued_token_stores (idx : nat) (o : OptionWrapper) (v : string) (x : Value) :
  m_options_map (self w) !! (parseOptionWithEqualSign arg).1 = Some idx ->
  m_options (self w) !! idx = Some o ->
  Option.flag (base o) = false ->
  tokens (advance (inject (parseOptionWithEqualSign arg).2 w)) !! 0 = Some v ->
  m_options_map (self w) !! v = None ->
  TypeParser_Get (T o) v = inr x ->
  exists w', parseArguments_body w = Return tt w' /\
    m_options (self w') !! idx = Some (with_value x (with_base mark_set o)) /\
    (forall j, j <> idx -> m_options (self w') !! j = m_options (self w) !! j) /\
    heap w' = match m_ref o with Some l => <[l := x]> (heap w) | None => heap w end /\
    m_option_order (self w') = m_option_order (self w) ++ [idx] /\
    tokens w' = drop 1 (tokens (advance (inject (parseOptionWithEqualSign arg).2 w))).
Proof.
  intros Hmap Hopt Hflag Hnext Hkey Hx.
  unfold parseArguments_body. rewrite (body_valued _ _ _ _ Hmap Hopt Hflag).
  fold arg in Hnext |- *. set (value := (parseOptionWithEqualSign arg).2) in *.
  cbv zeta. set (w1 := advance (inject value w)) in *.
  destruct (tokens_first _ _ Hnext) as [Hlt%Nat.leb_gt Hv]. rewrite Hlt, Hv, Hkey.
  assert (m_options (self w1) = m_options (self w)) as Hi by (by destruct value).
  assert (m_options (self w1) !! idx = Some o) as Ho1 by (by rewrite Hi).
  destruct (setValue_success idx v w1 o x Ho1 Hx)
    as (w2 & -> & Hopts & Hheap & Hargv & Hcur & Hord & _).
  eexists. split; [done|]. simpl.
  rewrite Hopts, Hi. split; [by apply lookup_assigned|]. split.
  { intros j Hj. by rewrite !list_lookup_alter_ne. }
  split. { rewrite Hheap. by destruct value. }
  split. { rewrite Hord. by destruct value. }
  unfold tokens. simpl. rewrite Hargv, Hcur, drop_drop. f_equal; lia.
Qed.

(** X4.  When the raw value of a valued option does not convert, the
    exception of the converter ([std::invalid_argument] or
    [std::out_of_range] of [std::stoi]) leaves the turn, the scan and
    [parse] as it is; the descriptor is then marked set although its value,
    the bound storage and the invocation record are unchanged. *)
Theorem conversion_failure (idx : nat) (o : OptionWrapper) (v : string) (e : exn) :
  m_curr_arg (self w) < length (m_argv (self w)) ->
  m_options_map (self w) !! (parseOptionWithEqualSign arg).1 = Some idx ->
  m_options (self w) !! idx = Some o ->
  Option.flag (base o) = false ->
  tokens (advance (inject (parseOptionWithEqualSign arg).2 w)) !! 0 = Some v ->
  m_options_map (self w) !! v = None ->
  TypeParser_Get (T o) v = inl e ->
  exists w', fails w e w' /\
    m_options (self w') !! idx = Some (with_base mark_set o) /\
    heap w' = heap w /\ out w' = out w /\
    m_option_order (self w') = m_option_order (self w).
Proof.
  intros Hlt0 Hmap Hopt Hflag Hnext Hkey Hx.
  pose proof (body_valued setValue w _ _ Hmap Hopt Hflag) as Hbody.
  fold parseArguments_body in Hbody.
  fold arg in Hnext, Hbody. set (value := (parseOptionWithEqualSign arg).2) in *.
  cbv zeta in Hbody. set (w1 := advance (inject value w)) in *.
  destruct (tokens_first _ _ Hnext) as [Hlt%Nat.leb_gt Hv].
  rewrite Hlt in Hbody.
  rewrite Hv, Hkey in Hbody.
  assert (m_options (self w1) = m_options (self w) /\ heap w1 = heap w /\
          out w1 = out w /\ m_option_order (self w1) = m_option_order (self w))
    as (Hi & Hh & Hou & Hor) by (by destruct value).
  rewrite setValue_unfold, Hi, Hopt in Hbody. simpl in Hbody. rewrite Hx in Hbody.
  clearbody w1.
  eexists. split; [apply fails_turn; [done | exact Hbody]|]. simpl.
  rewrite Hi. by rewrite list_lookup_alter_eq, Hopt.
Qed.
End Matched.

Lemma flag_token_sets_witness :
  let w := declare ["prog"; "-s=false"; "x"] silent_flag in
  exists w', parseArguments_body w = Return tt w' /\
    value 0 w' = Some (VBool true) /\ heap w' !! 0 = Some (VBool true) /\
    tokens w' = ["false"; "x"].
Proof.
  intros w.
  assert (m_curr_arg (self w) < length (m_argv (self w))) as Hlt
    by (vm_compute; lia).
  destruct (flag_token_sets w 0 _ (VBool true) Hlt eq_refl eq_refl eq_refl eq_refl)
    as (w' & Hb & Ho & _ & Hh & _ & Ht).
  exists w'. split; [exact Hb|]. split; [|split].
  - unfold value. rewrite Ho. reflexivity.
  - rewrite Hh. reflexivity.
  - rewrite Ht. reflexivity.
Defined.

Lemma valued_token_stores_witness :
  let w := declare [""; "-a"; "123"; "-b"; "hello"] int_option in
  exists w', parseArguments_body w = Return tt w' /\
    value 0 w' = Some (VInt 123) /\ heap w' !! 0 = Some (VInt 123) /\
    tokens w' = ["-b"; "hello"].
Proof.
  intros w.
  destruct (valued_token_stores w 0 _ "123" (VInt 123) eq_refl eq_refl eq_refl
              eq_refl eq_refl eq_refl)
    as (w' & Hb & Ho & _ & Hh & _ & Ht).
  exists w'. split; [exact Hb|]. split; [|split].
  - unfold value. rewrite Ho. reflexivity.
  - rewrite Hh. reflexivity.
  - rewrite Ht. reflexivity.
Defined.

Lemma conversion_failure_witness :
  let w := declare [""; "-a"; "abc"] int_option in
  exists w', parse w = Throw (invalid_argument "stoi") w' /\
    (exists o, m_options (self w') !! 0 = Some o /\ Option.set (base o) = true /\
       m_value o = None) /\
    heap w' !! 0 = None.
Proof.
  intros w.
  assert (m_curr_arg (self w) < length (m_argv (self w))) as Hlt
    by (vm_compute; lia).
  destruct (conversion_failure w 0 _ "abc" (invalid_argument "stoi") Hlt eq_refl eq_refl
              eq_refl eq_refl eq_refl eq_refl)
    as (w' & (_ & _ & Hp) & Ho & Hh & _).
  exists w'. split; [apply Hp; vm_compute; lia|]. split.
  - eexists. split; [exact Ho|]. split; reflexivity.
  - rewrite Hh. reflexivity.
Defined.

(** ** A flag anywhere among the tokens *)

Lemma evolves_declared o o' :
  evolves o o' ->
  Option.flag (base o') = Option.flag (base o) /\
  Option.overruling (base o') = Option.overruling (base o) /\
  Option.required (base o') = Option.required (base o) /\
  m_callback o' = m_callback o /\ T o' = T o /\ m_ref o' = m_ref o.
Proof. intros [Hd _]. unfold declared in Hd. by injection Hd. Qed.

Lemma scanned_lookup w w' idx o :
  scanned w w' -> m_options (self w) !! idx = Some o ->
  exists o', m_options (self w') !! idx = Some o' /\ evolves o o'.
Proof. intros (_ & _ & Hall) Ho. by eapply Forall2_lookup_l. Qed.

Lemma setValue_sets idx v s s1 o :
  setValue idx v s = Return tt s1 ->
  m_options (self s) !! idx = Some o ->
  exists o1, m_options (self s1) !! idx = Some o1 /\ Option.set (base o1) = true.
Proof.
  rewrite setValue_unfold. intros H Ho. rewrite Ho in H. simpl in H.
  destruct (TypeParser_Get (T o) v) as [e|x]; [done|].
  assert (m_options (self s1) =
          alter (with_value x) idx (alter (with_base mark_set) idx (m_options (self s))))
    as ->.
  { destruct (m_ref o); by injection H as <-. }
  rewrite !list_lookup_alter_eq, Ho. by eexists.
Qed.

Lemma turn_keeps k arg rest s rest' s' :
  k ∈ rest -> is_Some (m_options_map (self s) !! k) ->
  turn arg rest s = Turned rest' s' -> k ∈ rest'.
Proof.
  intros Hin [i Hk]. unfold turn.
  destruct (parseOptionWithEqualSign arg) as [option value].
  assert (k ∈ match value with Some v => v :: rest | None => rest end) as Hfol.
  { destruct value; [by apply elem_of_cons; right | done]. }
  destruct (m_options_map (self s) !! option) as [idx|]; [|by intros [= <- _]].
  destruct (m_options (self s) !! idx) as [o|]; [|done].
  destruct (Option.flag (base o)).
  - destruct (setValue idx "" s) as [[] s1|]; [|done]. by intros [= <- _].
  - destruct value as [v|].
    + destruct (m_options_map (self s) !! v); [done|].
      destruct (setValue idx v s) as [[] s1|]; [|done]. by intros [= <- _].
    + destruct rest as [|f rest0]; [done|].
      destruct (m_options_map (self s) !! f) eqn:Hf; [done|].
      destruct (setValue idx f s) as [[] s1|]; [|done]. intros [= <- _].
      apply elem_of_cons in Hin as [->|Hin]; [congruence | done].
Qed.

Lemma flag_key_set k idx : forall w w1,
  m_options_map (self w) !! k = Some idx ->
  find "=" k = None ->
  (exists o, m_options (self w) !! idx = Some o /\ Option.flag (base o) = true) ->
  k ∈ tokens w ->
  parseArguments w = Return tt w1 ->
  exists o1, m_options (self w1) !! idx = Some o1 /\ Option.set (base o1) = true.
Proof.
  intros w. remember (pending (self w)) as n eqn:Hn. revert w Hn.
  induction n as [n IH] using lt_wf_ind. intros w -> w1 Hk Hfind (o & Ho & Hflag) Hin.
  destruct (tokens w) as [|arg rest] eqn:H1; [by apply elem_of_nil in Hin|].
  rewrite (parseArguments_next _ _ _ H1).
  pose proof (parseArguments_body_turn _ _ _ H1) as S1.
  pose proof (parseArguments_body_scanned w) as Hsc.
  assert (m_curr_arg (self w) < length (m_argv (self w))) as Hlt.
  { apply tokens_cursor. by rewrite H1. }
  destruct (turn arg rest (erase w)) as [rest' s|e s] eqn:Ht.
  2:{ destruct S1 as (w' & -> & _). done. }
  destruct S1 as (w' & Hb & T1 & E1). rewrite Hb in Hsc |- *. simpl in Hsc.
  intros Hscan.
  destruct (decide (arg = k)) as [->|Hne].
  - unfold turn in Ht. rewrite (split_no_equal_sign _ Hfind), erase_map, Hk,
      erase_options, Ho, Hflag in Ht.
    destruct (setValue idx "" (erase w)) as [[] s1|] eqn:Hset; [|done].
    injection Ht as _ <-.
    destruct (setValue_sets _ _ _ _ o Hset) as (o1 & Ho1 & Hs1); [done|].
    assert (m_options (self w') !! idx = Some o1) as Ho'.
    { by rewrite <- (erase_options w'), E1. }
    pose proof (parseArguments_scanned w') as Hsc'. rewrite Hscan in Hsc'.
    simpl in Hsc'.
    destruct (scanned_lookup _ _ _ _ Hsc' Ho') as (o2 & Ho2 & _ & Hmono).
    exists o2. split; [done|]. apply Is_true_true, Hmono. by rewrite Hs1.
  - apply elem_of_cons in Hin as [->|Hin]; [done|].
    destruct Hsc as (Hmap & _).
    destruct (scanned_lookup _ _ _ _ (parseArguments_body_scanned w) Ho)
      as (o' & Ho' & Hev). rewrite Hb in Ho'. simpl in Ho'.
    destruct (evolves_declared _ _ Hev) as (Hfl & _).
    assert (pending (self w') < pending (self w)) as Hdec
      by (by eapply (body_pending setValue setValue_frames)).
    apply (IH _ Hdec w' eq_refl w1); [by rewrite Hmap | done | | | done].
    + exists o'. split; [done|]. by rewrite Hfl.
    + rewrite T1. eapply turn_keeps; [exact Hin| |exact Ht].
      rewrite erase_map, Hk. by eexists.
Qed.

(** X5.  If the key of a flag is among the tokens left and the scan
    returns, the flag is set afterwards, wherever the key stands: a key
    that a valued option would take as its value makes the scan raise. *)
Theorem flag_anywhere_is_set (w w1 : World) (k : string) (idx : nat) (o : OptionWrapper) :
  m_options_map (self w) !! k = Some idx ->
  find "=" k = None ->
  m_options (self w) !! idx = Some o ->
  Option.flag (base o) = true ->
  k ∈ tokens w ->
  parseArguments w = Return tt w1 ->
  exists o1, m_options (self w1) !! idx = Some o1 /\ Option.set (base o1) = true /\
    declared o1 = declared o.
Proof.
  intros Hk Hfind Ho Hflag Hin Hscan.
  destruct (flag_key_set k idx w w1 Hk Hfind) as (o1 & Ho1 & Hs1); [by eauto|done..|].
  exists o1. split; [done|]. split; [done|].
  pose proof (parseArguments_scanned w) as Hsc. rewrite Hscan in Hsc. simpl in Hsc.
  destruct (scanned_lookup _ _ _ _ Hsc Ho) as (o2 & Ho2 & Hd & _).
  rewrite Ho1 in Ho2. by injection Ho2 as ->.
Qed.

(** X6.  If the key of an overruling flag is among the tokens left, the
    vector has two entries or more and the scan returns, [parse] returns
    false after one callback, that of the first descriptor that is set and
    overruling: the flag's own, unless an earlier descriptor is. *)
Theorem overruling_flag_anywhere (w w1 : World) (k : string) (idx : nat)
    (o : OptionWrapper) :
  m_options_map (self w) !! k = Some idx ->
  find "=" k = None ->
  m_options (self w) !! idx = Some o ->
  Option.flag (base o) = true ->
  Option.overruling (base o) = true ->
  k ∈ tokens w ->
  2 <= length (m_argv (self w)) ->
  parseArguments w = Return tt w1 ->
  exists j oj, j <= idx /\
    list_find overrules (m_options (self w1)) = Some (j, oj) /\
    parse w = Return false (said (fired j oj) w1) /\
    (j = idx -> m_callback oj = m_callback o).
Proof.
  intros Hk Hfind Ho Hflag Hovr Hin Hlen Hscan.
  destruct (flag_key_set k idx w w1 Hk Hfind) as (o1 & Ho1 & Hs1); [by eauto|done..|].
  pose proof (parseArguments_scanned w) as Hsc. rewrite Hscan in Hsc. simpl in Hsc.
  destruct (scanned_lookup _ _ _ _ Hsc Ho) as (o2 & Ho2 & Hev).
  rewrite Ho1 in Ho2. injection Ho2 as <-.
  destruct (evolves_declared _ _ Hev) as (_ & Hov1 & _ & Hcb & _).
  assert (overrules o1) as Hover.
  { unfold overrules. by rewrite Hs1, Hov1, Hovr. }
  destruct (list_find_elem_of overrules (m_options (self w1)) o1) as [[j oj] Hj];
    [by eapply list_elem_of_lookup_2 | done |].
  exists j, oj.
  pose proof Hj as (Hjo & _ & Hmin)%list_find_Some.
  split.
  { destruct (decide (j <= idx)); [done|]. exfalso.
    eapply (Hmin idx o1); [done | lia | done]. }
  split; [done|]. split.
  - unfold parse. rewrite parse_cases. fold parseArguments.
    apply Nat.ltb_ge in Hlen. by rewrite Hlen, Hscan, Hj.
  - intros ->. rewrite Ho1 in Hjo. by injection Hjo as <-.
Qed.

Lemma addHelp_unfold w :
  addHelp w =
    Return (length (m_options (self w)))
      (on_self (fun p => set_options_map
                  (<["--help" := length (m_options (self w))]>
                     (<["-h" := length (m_options (self w))]> (m_options_map p)))
                  (set_options (m_options p ++ [help_option]) p)) w).
Proof.
  unfold addHelp, option_bool, option_, flag, overruling, description,
    callback, update_option. run.
  assert (forall (f : OptionWrapper -> OptionWrapper) (l : list OptionWrapper) x,
            alter f (length l) (l ++ [x]) = l ++ [f x]) as Halter.
  { intros f l x. rewrite <- (Nat.add_0_r (length l)). by rewrite alter_app_r. }
  rewrite !length_app, !Nat.add_sub. by rewrite !Halter.
Qed.

(** X7.  [addHelp] declares one new descriptor, a [bool] flag that
    overrules and whose callback prints the help, registers the keys [-h]
    and [--help] for it and returns its handle; it raises nothing and
    changes nothing else. *)
Theorem addHelp_declares (w : World) :
  let h := length (m_options (self w)) in
  exists w', addHelp w = Return h w' /\
    m_options (self w') = m_options (self w) ++ [help_option] /\
    m_options_map (self w') =
      <["--help" := h]> (<["-h" := h]> (m_options_map (self w))) /\
    m_argv (self w') = m_argv (self w) /\
    m_curr_arg (self w') = m_curr_arg (self w) /\
    m_option_order (self w') = m_option_order (self w) /\
    heap w' = heap w /\ out w' = out w.
Proof.
  intros h. rewrite addHelp_unfold. eexists. split; [done|]. simpl. done.
Qed.

Lemma overruling_flag_anywhere_witness :
  let w := declare ["prog"; "-c"; "config.json"; "--help"] help_and_config in
  exists w', parse w = Return false w' /\
    out w' = [Invoke 0 print_help (Some (VBool true)); Help].
Proof.
  intros w.
  destruct (overruling_flag_anywhere w (world (parseArguments w)) "--help" 0 help_option)
    as (j & oj & Hj & Hf & Hp & _).
  - reflexivity.
  - reflexivity.
  - reflexivity.
  - reflexivity.
  - reflexivity.
  - vm_compute tokens. apply elem_of_cons. right. apply elem_of_cons. right.
    apply elem_of_cons. by left.
  - vm_compute. lia.
  - vm_compute. reflexivity.
  - vm_compute in Hf. injection Hf as <- <-. eexists. split; [exact Hp|]. reflexivity.
Defined.

Lemma flag_anywhere_is_set_witness :
  let w := declare ["prog"; "x"; "-s"] silent_flag in
  exists o1, m_options (self (world (parseArguments w))) !! 0 = Some o1 /\
    Option.set (base o1) = true.
Proof.
  intros w.
  destruct (flag_anywhere_is_set w (world (parseArguments w)) "-s" 0
              {| base := mark_flag (Option.new "" "-s"); T := TBool;
                 m_callback := no_op; m_value := None; m_ref := Some 0 |})
    as (o1 & H1 & H2 & _).
  - reflexivity.
  - reflexivity.
  - reflexivity.
  - reflexivity.
  - vm_compute tokens. apply elem_of_cons. right. apply elem_of_cons. by left.
  - vm_compute. reflexivity.
  - by exists o1.
Defined.

(** ** What a parse keeps *)

Lemma grown_refl w : grown w w.
Proof.
  split; [done|]. split; [done|]. split; [done|]. exists []. by rewrite app_nil_r.
Qed.

Lemma scanned_length w w' :
  scanned w w' -> length (m_options (self w')) = length (m_options (self w)).
Proof. intros (_ & _ & H). symmetry. by eapply Forall2_length. Qed.

Lemma grown_trans w1 w2 w3 :
  length (m_options (self w2)) = length (m_options (self w1)) ->
  grown w1 w2 -> grown w2 w3 -> grown w1 w3.
Proof.
  intros Hlen (S1 & T1 & C1 & a1 & O1 & F1) (S2 & T2 & C2 & a2 & O2 & F2).
  split; [by etrans|]. split.
  { rewrite <- T1.
    replace (S (m_curr_arg (self w1)))
      with (S (m_curr_arg (self w1)) `min` S (m_curr_arg (self w2))) by lia.
    by rewrite <- !take_take, T2. }
  split; [lia|]. exists (a1 ++ a2). rewrite O2, O1, app_assoc. split; [done|].
  apply Forall_app. split; [done|]. by rewrite <- Hlen.
Qed.

Lemma setValue_keeps idx v w :
  let w' := world (setValue idx v w) in
  m_argv (self w') = m_argv (self w) /\ m_curr_arg (self w') = m_curr_arg (self w) /\
  m_option_order (self w') = m_option_order (self w).
Proof.
  simpl. rewrite setValue_unfold.
  destruct (m_options (self w) !! idx) as [o|]; [|done]. simpl.
  destruct (TypeParser_Get (T o) v); [done|]. by destruct (m_ref o).
Qed.

Lemma inject_grown value w :
  m_curr_arg (self w) < length (m_argv (self w)) -> grown w (inject value w).
Proof.
  intros Hlt. destruct value as [v|]; [|apply grown_refl].
  split; [|split; [|split; [done|exists []; by rewrite app_nil_r]]]; simpl.
  - unfold vector_insert. rewrite <- (take_drop (m_curr_arg (self w) + 1) (m_argv (self w))) at 1.
    apply sublist_app; [done|]. by apply sublist_cons.
  - unfold vector_insert. rewrite take_app_le by (rewrite length_take; lia).
    rewrite take_take. f_equal. lia.
Qed.

Lemma of_keeps w w' :
  m_argv (self w') = m_argv (self w) -> m_curr_arg (self w) <= m_curr_arg (self w') ->
  (exists added, m_option_order (self w') = m_option_order (self w) ++ added /\
     Forall (fun idx => idx < length (m_options (self w))) added) ->
  grown w w'.
Proof. intros Ha Hc Ho. split; [by rewrite Ha|]. split; [by rewrite Ha|]. done. Qed.

Lemma parseArguments_body_grown w :
  m_curr_arg (self w) < length (m_argv (self w)) ->
  grown w (world (parseArguments_body w)).
Proof.
  intros Hlt. unfold parseArguments_body.
  set (arg := nth (m_curr_arg (self w)) (m_argv (self w)) "").
  pose proof (inject_grown (parseOptionWithEqualSign arg).2 w Hlt) as Hinj.
  assert (length (m_options (self (inject (parseOptionWithEqualSign arg).2 w))) =
          length (m_options (self w))) as Hlen
    by (by destruct (parseOptionWithEqualSign arg).2).
  assert (forall w', grown (inject (parseOptionWithEqualSign arg).2 w) w' -> grown w w')
    as Hvia.
  { intros w'. by apply grown_trans. }
  destruct (m_options_map (self w) !! (parseOptionWithEqualSign arg).1) as [idx|] eqn:Hmap.
  2:{ rewrite (body_unmatched _ _ Hmap). fold arg.
      generalize dependent (inject (parseOptionWithEqualSign arg).2 w). intros w0 _ _ Hvia.
      apply Hvia, of_keeps; simpl; [done|lia|]. exists []. by rewrite app_nil_r. }
  destruct (m_options (self w) !! idx) as [o|] eqn:Hopt.
  2:{ by rewrite (body_dangling _ _ _ Hmap Hopt). }
  assert (idx < length (m_options (self (inject (parseOptionWithEqualSign arg).2 w))))
    as Hidx.
  { rewrite Hlen. by eapply lookup_lt_Some. }
  destruct (Option.flag (base o)) eqn:Hflag.
  - rewrite (body_flag _ _ _ _ Hmap Hopt Hflag). fold arg.
    generalize dependent (inject (parseOptionWithEqualSign arg).2 w).
    intros w0 _ _ Hvia Hidx.
    destruct (setValue_keeps idx "" w0) as (Ha & Hc & Ho).
    destruct (setValue idx "" w0) as [[] w2|e w2]; simpl in *; apply Hvia.
    + apply of_keeps; simpl; [done | lia |]. exists [idx]. rewrite Ho.
      split; [done|]. by constructor.
    + apply of_keeps; [done | lia |]. exists []. by rewrite app_nil_r.
  - rewrite (body_valued _ _ _ _ Hmap Hopt Hflag). fold arg. cbv zeta.
    generalize dependent (inject (parseOptionWithEqualSign arg).2 w).
    intros w0 _ _ Hvia Hidx.
    assert (grown w0 (advance w0)) as Hadv.
    { apply of_keeps; simpl; [done | lia |]. exists []. by rewrite app_nil_r. }
    destruct (_ <=? _); [by apply Hvia|].
    destruct (m_options_map (self w) !! nth _ _ _); [by apply Hvia|].
    destruct (setValue_keeps idx
                (nth (m_curr_arg (self (advance w0))) (m_argv (self (advance w0))) "")
                (advance w0)) as (Ha & Hc & Ho).
    destruct (setValue idx _ (advance w0)) as [[] w2|e w2]; simpl in *; apply Hvia.
    + apply of_keeps; simpl; [done | lia |]. exists [idx]. rewrite Ho.
      split; [done|]. by constructor.
    + apply of_keeps; simpl; [done | lia |]. exists []. by rewrite app_nil_r.
Qed.

Lemma parseArguments_grown w :
  grown w (world (parseArguments w)) /\ scanned w (world (parseArguments w)).
Proof.
  apply (parseArguments_invariant setValue setValue_frames
           (fun w' => grown w w' /\ scanned w w')).
  - intros w0 Hlt [Hg Hs]. split.
    + eapply grown_trans; [by apply scanned_length | done |].
      by apply parseArguments_body_grown.
    + eapply scanned_trans; [done | apply parseArguments_body_scanned].
  - split; [apply grown_refl | apply scanned_refl].
Qed.

Lemma parse_world w :
  exists events,
    world (parse w) =
      said events (if length (m_argv (self w)) <? 2 then w else world (parseArguments w)).
Proof.
  unfold parse. rewrite parse_cases. fold parseArguments.
  destruct (_ <? 2); [by eexists|].
  destruct (parseArguments w) as [[] w1|e w1]; simpl.
  - destruct (list_find overrules _) as [[i o]|]; [by eexists|].
    destruct (list_find unmet _) as [[i o]|]; [|by eexists].
    exists []. by rewrite said_nil.
  - exists []. by rewrite said_nil.
Qed.

Lemma parse_grown_scanned w :
  let w' := world (parse w) in
  grown w w' /\ m_options_map (self w') = m_options_map (self w) /\
  Forall2 evolves (m_options (self w)) (m_options (self w')).
Proof.
  simpl. destruct (parse_world w) as [events ->].
  destruct (_ <? 2).
  - split; [exact (grown_refl w)|]. split; [done|]. apply evolves_all.
  - destruct (parseArguments_grown w) as [Hg (Hm & _ & Hf)]. done.
Qed.

(** X8.  However [parse] ends, it has not changed the key map, and every
    descriptor is declared as it was (keys, type, flag, required,
    overruling, callback, binding); a descriptor that was set is still
    set. *)
Theorem parse_keeps_declarations (w : World) :
  let w' := world (parse w) in
  m_options_map (self w') = m_options_map (self w) /\
  length (m_options (self w')) = length (m_options (self w)) /\
  forall idx o, m_options (self w) !! idx = Some o ->
    exists o', m_options (self w') !! idx = Some o' /\
      declared o' = declared o /\
      (Option.set (base o) = true -> Option.set (base o') = true).
Proof.
  simpl. destruct (parse_grown_scanned w) as (_ & Hm & Hf).
  split; [done|]. split; [symmetry; by eapply Forall2_length|].
  intros idx o Ho. destruct (Forall2_lookup_l _ _ _ _ _ Hf Ho) as (o' & Ho' & Hd & Hs).
  exists o'. split; [done|]. split; [done|].
  intros H. apply Is_true_true, Hs. by rewrite H.
Qed.

(** X9.  [parse] only inserts into the argument vector, behind the cursor:
    the vector it leaves holds the tokens it found, in their order, and the
    tokens up to the cursor, the program name among them, are where they
    were; the cursor never moves back. *)
Theorem parse_grows_argv (w : World) :
  let w' := world (parse w) in
  m_argv (self w) `sublist_of` m_argv (self w') /\
  (forall i, i <= m_curr_arg (self w) -> m_argv (self w') !! i = m_argv (self w) !! i) /\
  m_curr_arg (self w) <= m_curr_arg (self w').
Proof.
  simpl. destruct (parse_grown_scanned w) as ((Hs & Ht & Hc & _) & _).
  split; [done|]. split; [|done]. intros i Hi.
  rewrite <- (lookup_take_lt (m_argv (self (world (parse w)))) (S (m_curr_arg (self w)))) by lia.
  rewrite Ht. apply lookup_take_lt. lia.
Qed.

Lemma parseArguments_ends w w1 :
  parseArguments w = Return tt w1 -> tokens w1 = [].
Proof.
  remember (pending (self w)) as n eqn:Hn. revert w Hn.
  induction n as [n IH] using lt_wf_ind. intros w ->.
  destruct (tokens w) as [|arg rest] eqn:H1.
  - rewrite parseArguments_done by done. by intros [= <-].
  - rewrite (parseArguments_next _ _ _ H1).
    destruct (parseArguments_body w) as [[] w'|] eqn:Hb; [|done].
    eapply IH; [|done]. eapply (body_pending setValue setValue_frames); [|done].
    apply tokens_cursor. by rewrite H1.
Qed.

Lemma parse_true_world w w' :
  parse w = Return true w' ->
  exists w1, parseArguments w = Return tt w1 /\
    w' = said (dispatched (m_options (self w1)) (m_option_order (self w1))) w1.
Proof.
  unfold parse. rewrite parse_cases. fold parseArguments.
  destruct (_ <? 2); [done|].
  destruct (parseArguments w) as [[] w1|e w1]; [|done].
  destruct (list_find overrules _) as [[i o]|]; [done|].
  destruct (list_find unmet _) as [[i o]|]; [done|].
  intros [= <-]. by exists w1.
Qed.

(** X10.  [parse] returns true exactly when the vector has two entries or
    more, the scan returns, and then no descriptor is both set and
    overruling and none is required and not set; the world it leaves is
    the one of the scan, with the callbacks of the invocation record
    dispatched. *)
Theorem parse_true_iff (w w' : World) :
  parse w = Return true w' <->
  2 <= length (m_argv (self w)) /\
  exists w1, parseArguments w = Return tt w1 /\
    Forall (fun o => ~ overrules o) (m_options (self w1)) /\
    Forall (fun o => ~ unmet o) (m_options (self w1)) /\
    w' = said (dispatched (m_options (self w1)) (m_option_order (self w1))) w1.
Proof.
  unfold parse. rewrite parse_cases. fold parseArguments. split.
  - destruct (_ <? 2) eqn:E; [done|]. apply Nat.ltb_ge in E.
    destruct (parseArguments w) as [[] w1|e w1]; [|done].
    destruct (list_find overrules _) as [[i o]|] eqn:F1; [done|].
    destruct (list_find unmet _) as [[i o]|] eqn:F2; [done|].
    intros [= <-]. split; [done|]. exists w1.
    apply list_find_None in F1, F2. done.
  - intros (Hlen & w1 & -> & F1 & F2 & ->).
    apply Nat.ltb_ge in Hlen. rewrite Hlen.
    apply (list_find_None overrules) in F1. apply (list_find_None unmet) in F2.
    by rewrite F1, F2.
Qed.

(** X11.  When [parse] raises, nothing has been printed and no callback
    has run: the output is as it was.  The exception is the one of the
    scan, or the missing-required exception after a scan that returned. *)
Theorem parse_raises_silently (w w' : World) (e : exn) :
  parse w = Throw e w' ->
  out w' = out w /\ 2 <= length (m_argv (self w)) /\
  (parseArguments w = Throw e w' \/
   parseArguments w = Return tt w' /\
   exists o, o ∈ m_options (self w') /\ unmet o /\ e = required_missing o).
Proof.
  unfold parse. rewrite parse_cases. fold parseArguments.
  destruct (_ <? 2) eqn:E; [done|]. apply Nat.ltb_ge in E.
  pose proof (parseArguments_scanned w) as (_ & Hout & _).
  destruct (parseArguments w) as [[] w1|e1 w1]; simpl in *.
  - destruct (list_find overrules _) as [[i o]|] eqn:F1; [done|].
    destruct (list_find unmet _) as [[i o]|] eqn:F2; [|done].
    intros [= <- <-]. split; [done|]. split; [done|]. right. split; [done|].
    apply list_find_Some in F2 as (Hi & Hu & _).
    exists o. split; [by eapply list_elem_of_lookup_2 | done].
  - intros [= <- <-]. split; [done|]. split; [done|]. by left.
Qed.

(** ** Indices that point at descriptors *)

Lemma TypeParser_Get_raises T v e :
  TypeParser_Get T v = inl e ->
  e = invalid_argument "stoi" \/ e = out_of_range "stoi".
Proof.
  destruct T; simpl; try done. unfold Get, TypeParser_int, stoi.
  destruct (match skip_space v with
            | String "-" s' => (true, s') | String "+" s' => (false, s')
            | _ => (false, skip_space v) end) as [neg s].
  destruct (digits None s) as [n|]; simpl; [|intros [= <-]; by left].
  destruct (_ || _)%bool; simpl; [intros [= <-]; by right | done].
Qed.

Lemma setValue_raises idx v w e w' :
  setValue idx v w = Throw e w' ->
  e = invalid_argument "stoi" \/ e = out_of_range "stoi".
Proof.
  rewrite setValue_unfold. destruct (m_options (self w) !! idx) as [o|]; [|done].
  simpl. destruct (TypeParser_Get (T o) v) as [e'|x] eqn:H.
  - intros [= <- _]. by eapply TypeParser_Get_raises.
  - by destruct (m_ref o).
Qed.

Lemma wf_later w w' :
  wf w -> grown w w' -> scanned w w' -> wf w'.
Proof.
  intros [Hm Ho] (_ & _ & _ & added & Hadd & Hval) Hs.
  pose proof (scanned_length _ _ Hs) as Hlen. destruct Hs as (Hmap & _).
  split.
  - intros k idx. rewrite Hmap, Hlen. apply Hm.
  - rewrite Hadd, Hlen. apply Forall_app. done.
Qed.

Lemma parseArguments_in_range : forall w e w',
  wf w -> parseArguments w = Throw e w' ->
  e <> out_of_range "vector::_M_range_check".
Proof.
  intros w. remember (pending (self w)) as n eqn:Hn. revert w Hn.
  induction n as [n IH] using lt_wf_ind. intros w -> e w' Hwf.
  destruct (tokens w) as [|arg rest] eqn:H1; [by rewrite parseArguments_done|].
  rewrite (parseArguments_next _ _ _ H1).
  assert (m_curr_arg (self w) < length (m_argv (self w))) as Hlt.
  { apply tokens_cursor. by rewrite H1. }
  pose proof (parseArguments_body_grown w Hlt) as Hg.
  pose proof (parseArguments_body_scanned w) as Hs.
  pose proof (parseArguments_body_turn _ _ _ H1) as S1.
  destruct (parseArguments_body w) as [[] w2|e2 w2] eqn:Hb; simpl in *.
  - apply (IH (pending (self w2))); [|done|by eapply wf_later].
    by eapply (body_pending setValue setValue_frames).
  - intros [= <- <-]. unfold turn in S1.
    destruct (parseOptionWithEqualSign arg) as [option value].
    rewrite !erase_map, !erase_options in S1.
    destruct (m_options_map (self w) !! option) as [idx|] eqn:Hmap.
    2:{ by destruct S1 as (? & ? & _). }
    destruct (m_options (self w) !! idx) as [o|] eqn:Hopt.
    2:{ destruct Hwf as [Hm _]. apply Hm in Hmap.
        apply lookup_ge_None in Hopt. lia. }
    destruct (Option.flag (base o)).
    + destruct (setValue idx "" (erase w)) as [[] s1|e1 s1] eqn:Hset.
      * by destruct S1 as (? & ? & _).
      * destruct S1 as (? & [= -> _] & _).
        destruct (setValue_raises _ _ _ _ _ Hset) as [->| ->]; done.
    + destruct (match value with Some v => v :: rest | None => rest end) as [|f rest'].
      { destruct S1 as (? & [= -> _] & _). done. }
      destruct (m_options_map (self w) !! f).
      { destruct S1 as (? & [= -> _] & _). done. }
      destruct (setValue idx f (erase w)) as [[] s1|e1 s1] eqn:Hset.
      * by destruct S1 as (? & ? & _).
      * destruct S1 as (? & [= -> _] & _).
        destruct (setValue_raises _ _ _ _ _ Hset) as [->| ->]; done.
Qed.

Lemma wf_option_ T short long w : wf w -> wf (world (option_ T short long w)).
Proof.
  intros [Hm Ho].
  assert (Forall (fun idx => idx < length (m_options (self w) ++
            [OptionWrapper_new T short long])) (m_option_order (self w))) as Ho'.
  { rewrite length_app. eapply Forall_impl; [exact Ho|]. simpl. lia. }
  assert (forall k idx, m_options_map (self w) !! k = Some idx ->
            idx < length (m_options (self w) ++ [OptionWrapper_new T short long])) as Hm'.
  { intros k idx Hk%Hm. rewrite length_app. lia. }
  assert (length (m_options (self w) ++ [OptionWrapper_new T short long]) - 1 <
          length (m_options (self w) ++ [OptionWrapper_new T short long])) as Hnew.
  { rewrite length_app. simpl. lia. }
  unfold option_. run.
  destruct short as [|a short], long as [|b long]; simpl; (split; [|done]);
    intros k idx; simpl; rewrite ?lookup_insert; repeat case_decide;
    try (intros [= <-]; exact Hnew); apply Hm'.
Qed.

Lemma wf_update_option idx f w : wf w -> wf (world (update_option idx f w)).
Proof. intros [Hm Ho]. split; simpl; rewrite length_alter; done. Qed.

Lemma wf_new arguments : wf (World_new arguments).
Proof.
  split; [|by constructor]. intros k idx. simpl. by rewrite lookup_empty.
Qed.

Lemma wf_addHelp w : wf w -> wf (world (addHelp w)).
Proof.
  intros [Hm Ho]. rewrite addHelp_unfold. split; simpl.
  - intros k idx. rewrite length_app. simpl. rewrite !lookup_insert.
    repeat case_decide; try (intros [= <-]; lia). intros Hk%Hm. lia.
  - rewrite length_app. eapply Forall_impl; [exact Ho|]. simpl. lia.
Qed.

Lemma wf_bind {A B : Type} (m : M A) (f : A -> M B) w :
  (forall w1, wf w1 -> wf (world (m w1))) ->
  (forall a w1, wf w1 -> wf (world (f a w1))) ->
  wf w -> wf (world ((m ≫= f) w)).
Proof.
  intros Hm Hf Hw. unfold mbind, M_bind. specialize (Hm w Hw).
  destruct (m w); simpl in *; [by apply Hf | done].
Qed.

(** X12.  In a fresh parser, and after every declaration and
    configuration call, whether it returns or raises, every index of the
    key map and of the invocation record is the index of a descriptor. *)
Theorem declarations_well_formed :
  (forall arguments, wf (World_new arguments)) /\
  (forall T short long w, wf w -> wf (world (option_ T short long w))) /\
  (forall idx f w, wf w -> wf (world (update_option idx f w))) /\
  (forall idx v w, wf w -> wf (world (defaultValue idx v w))) /\
  (forall w, wf w -> wf (world (addHelp w))).
Proof.
  split; [|split; [|split; [|split]]].
  - apply wf_new.
  - apply wf_option_.
  - apply wf_update_option.
  - intros idx v w. apply wf_update_option.
  - apply wf_addHelp.
Qed.

Lemma parse_wf w : wf w -> wf (world (parse w)).
Proof.
  intros Hwf.
  destruct (parse_grown_scanned w) as (Hg & Hm & Hf).
  destruct Hwf as [H1 H2]. destruct Hg as (_ & _ & _ & added & Hadd & Hval).
  pose proof (Forall2_length _ _ _ Hf) as Hlen. split.
  - intros k idx. rewrite Hm, <- Hlen. apply H1.
  - rewrite Hadd, <- Hlen. by apply Forall_app.
Qed.

(** X13.  On a parser whose indices point at descriptors, [parse] keeps
    them so, however it ends, and never raises the [std::out_of_range] of
    [m_options.at]: the descriptor a key resolves to is always there. *)
Theorem parse_well_formed (w : World) :
  wf w ->
  wf (world (parse w)) /\
  forall w', parse w <> Throw (out_of_range "vector::_M_range_check") w'.
Proof.
  intros Hwf. split; [by apply parse_wf|].
  intros w' H. unfold parse in H. rewrite parse_cases in H. fold parseArguments in H.
  destruct (_ <? 2); [done|].
  destruct (parseArguments w) as [[] w1|e w1] eqn:Hs.
  - destruct (list_find overrules _) as [[i o]|]; [done|].
    by destruct (list_find unmet _) as [[i o]|].
  - injection H as -> ->. by eapply parseArguments_in_range.
Qed.

Lemma parse_well_formed_witness :
  let w := declare ["prog"; "-c"; "config.json"] help_and_config in
  wf (world (parse w)).
Proof.
  intros w. apply parse_well_formed.
  unfold w, declare, help_and_config, required.
  apply wf_bind; [apply wf_addHelp | | apply wf_new].
  intros _ w1 Hw1. apply wf_bind; [apply wf_option_ | | done].
  intros c w2 Hw2. by apply wf_update_option.
Defined.

(** ** Callbacks *)

Lemma invoked_app a b : invoked (a ++ b) = invoked a ++ invoked b.
Proof. unfold invoked. apply bind_app. Qed.

Lemma invoked_fired idx o : invoked (fired idx o) = [idx].
Proof. unfold fired. by destruct (m_callback o). Qed.

Lemma invoked_dispatched (options : list OptionWrapper) order :
  Forall (fun idx => idx < length options) order ->
  invoked (dispatched options order) = order.
Proof.
  induction 1 as [|idx order Hidx _ IH]; [done|].
  change (dispatched options (idx :: order))
    with (match options !! idx with Some o => fired idx o | None => [] end
          ++ dispatched options order).
  destruct (lookup_lt_is_Some_2 _ _ Hidx) as [o ->].
  by rewrite invoked_app, invoked_fired, IH.
Qed.

(** X14.  When [parse] returns true, it has run one callback for every
    entry of the invocation record, in the order of the record, which is
    the record it found with the descriptors the scan matched added behind
    it; each callback gets the value its descriptor holds after the scan,
    not the value it held when the token was matched. *)
Theorem callbacks_in_match_order (w w' : World) :
  wf w ->
  parse w = Return true w' ->
  out w' = out w ++ dispatched (m_options (self w')) (m_option_order (self w')) /\
  invoked (out w') = invoked (out w) ++ m_option_order (self w') /\
  exists matched, m_option_order (self w') = m_option_order (self w) ++ matched.
Proof.
  intros Hwf Hp.
  destruct (parse_wf w Hwf) as [_ Hord].
  destruct (parse_grown_scanned w) as ((_ & _ & _ & added & Hadd & _) & _).
  rewrite Hp in Hord, Hadd. simpl in *.
  apply parse_true_world in Hp as (w1 & Hs & ->).
  pose proof (parseArguments_scanned w) as (_ & Hout & _). rewrite Hs in Hout.
  simpl in *. rewrite Hout. split; [done|]. split; [|by exists added].
  by rewrite invoked_app, invoked_dispatched.
Qed.

Lemma callbacks_in_match_order_witness :
  let w := declare ["prog"; "-c"; "config.json"; "-v"] verbose_and_config in
  exists w', parse w = Return true w' /\ invoked (out w') = [1; 0].
Proof.
  intros w.
  assert (wf w) as Hwf.
  { unfold w, declare, verbose_and_config, flag, callback.
    repeat (apply wf_bind; [first [apply wf_option_ | intros; by apply wf_update_option]
                           | intros | try apply wf_new]); try done.
    all: try by apply wf_update_option. }
  eexists. split; [vm_compute; reflexivity|].
  exact (proj1 (proj2 (callbacks_in_match_order w _ Hwf eq_refl))).
Defined.

(** X15.  [parse] can be called again.  After a call that returned, a
    second call finds no token left to scan and changes no descriptor: it
    returns the same answer and appends once more the output of the first
    call, so every callback of the invocation record runs a second time. *)
Theorem parse_again (w w' : World) (b : bool) :
  parse w = Return b w' ->
  exists events,
    out w' = out w ++ events /\
    parse w' = Return b (said events w').
Proof.
  unfold parse. rewrite !parse_cases. fold parseArguments.
  destruct (length (m_argv (self w)) <? 2) eqn:E.
  { intros [= <- <-]. exists [Help]. simpl. by rewrite E. }
  pose proof (parseArguments_scanned w) as (_ & Hout & _).
  destruct (parseArguments_grown w) as [(Hsub & _) _].
  destruct (parseArguments w) as [[] w1|e w1] eqn:Hs; [|done]. simpl in *.
  apply parseArguments_ends in Hs.
  apply sublist_length in Hsub. apply Nat.ltb_ge in E.
  assert ((length (m_argv (self w1)) <? 2) = false) as E1 by (apply Nat.ltb_ge; lia).
  assert (forall events, parseArguments (said events w1) = Return tt (said events w1)) as Hdone.
  { intros events. by apply parseArguments_done. }
  destruct (list_find overrules _) as [[i o]|] eqn:F1.
  { intros [= <- <-]. exists (fired i o). simpl. rewrite Hout. split; [done|].
    rewrite E1, Hdone. simpl. by rewrite F1. }
  destruct (list_find unmet _) as [[i o]|] eqn:F2; [done|].
  intros [= <- <-]. eexists. simpl. rewrite Hout. split; [done|].
  rewrite E1, Hdone. simpl. by rewrite F1, F2.
Qed.

Lemma parse_again_witness :
  let w := declare ["prog"; "-c"; "config.json"; "-v"] verbose_and_config in
  exists w' events, parse w = Return true w' /\ parse w' = Return true (said events w') /\
    invoked events = [1; 0].
Proof.
  intros w. eexists. 
  destruct (parse_again w _ true eq_refl) as (events & Hout & Hp).
  exists events. split; [reflexivity|]. split; [exact Hp|].
  vm_compute in Hout. by subst events.
Defined.

(** ** The help message *)

(** The output of [./basic -h] printed in [README.md]. *)
Example help_sample_application :
  help false sample_title (self (declare ["./basic"; "-h"] sample_application)) =
  Text ("Sample Application 1.0.0" +:+ endl +:+
        "Some really useful cli program." +:+ endl +:+
        endl +:+
        "./basic [-h] [-v] -c <json config file> [-s] " +:+ endl +:+
        " [-f] " +:+ endl +:+
        "-h  --help" +:+ endl +:+
        "    Print this help message." +:+ endl +:+
        "-v --version" +:+ endl +:+
        "-c   --cfg <json config file>" +:+ endl +:+
        "    Sets the config file." +:+ endl +:+
        "-s        " +:+ endl +:+
        "    Silent mode" +:+ endl +:+
        "-f        " +:+ endl +:+
        "    Flag for something." +:+ endl).
Proof. vm_compute. reflexivity. Qed.

Lemma append_cons x (a b : string) : String x a +:+ b = String x (a +:+ b).
Proof. reflexivity. Qed.

Lemma append_assoc (a b c : string) : (a +:+ b) +:+ c = a +:+ (b +:+ c).
Proof. induction a as [|x a IH]; [done|]. by rewrite !append_cons, IH. Qed.

Lemma size_append (a b : string) : size (a +:+ b) = (size a + size b)%Z.
Proof.
  unfold size. induction a as [|x a IH]; [done|].
  rewrite append_cons. simpl String.length. rewrite !Nat2Z.inj_succ, IH. lia.
Qed.

Lemma size_nonneg (a : string) : (0 <= size a)%Z.
Proof. unfold size. lia. Qed.

Lemma declared_shown o o' :
  declared o' = declared o ->
  usage_entry (base o') = usage_entry (base o) /\
  listing_entry (base o') = listing_entry (base o) /\
  keyless o' = keyless o.
Proof.
  unfold declared, usage_entry, listing_entry, keyless.
  intros [= -> -> -> -> -> _ _ _ _ _ _]. done.
Qed.

Lemma usage_evolves NDEBUG size0 options options' :
  Forall2 evolves options options' ->
  forall ss line_length,
    usage NDEBUG size0 options' ss line_length =
    usage NDEBUG size0 options ss line_length.
Proof.
  induction 1 as [|o o' options options' [Hd _] _ IH]; [done|].
  intros ss line_length. simpl.
  destruct (declared_shown _ _ (eq_sym Hd)) as (-> & _ & ->).
  destruct (usage_break _ _ _) as [ss1 l1].
  destruct (negb NDEBUG && keyless o); [done|]. apply IH.
Qed.

Lemma listing_evolves options options' :
  Forall2 evolves options options' -> listing options' = listing options.
Proof.
  induction 1 as [|o o' options options' [Hd _] _ IH]; [done|].
  simpl. destruct (declared_shown _ _ (eq_sym Hd)) as (_ & -> & _). by rewrite IH.
Qed.

Lemma help_evolves NDEBUG t p p' :
  m_argv p' !! 0 = m_argv p !! 0 ->
  Forall2 evolves (m_options p) (m_options p') ->
  help NDEBUG t p' = help NDEBUG t p.
Proof.
  intros Ha Hf. unfold help. rewrite Ha.
  destruct (m_argv p !! 0); [|done].
  by rewrite (usage_evolves _ _ _ _ Hf), (listing_evolves _ _ Hf).
Qed.

Lemma parse_program w :
  m_argv (self (world (parse w))) !! 0 = m_argv (self w) !! 0.
Proof.
  destruct (parse_grown_scanned w) as ((_ & Ht & _) & _).
  rewrite <- (lookup_take_lt (m_argv (self (world (parse w)))) (S (m_curr_arg (self w)))) by lia.
  rewrite Ht. apply lookup_take_lt. lia.
Qed.

(** X16.  [parse] does not change the help message: whatever [help]
    returned before the call (the text, or its failure) it returns after
    it, however [parse] ended; so the text [parse] prints for the help
    option, or for an argument vector of fewer than two entries, is the one
    the caller would have got before. *)
Theorem help_unchanged_by_parse (NDEBUG : bool) (t : Title) (w : World) :
  help NDEBUG t (self (world (parse w))) = help NDEBUG t (self w).
Proof. apply help_evolves; [apply parse_program | apply parse_grown_scanned]. Qed.

Lemma usage_keyed NDEBUG size0 options :
  Forall (fun o => keyless o = false) options ->
  forall ss line_length,
    is_Some (usage NDEBUG size0 options ss line_length) /\
    usage NDEBUG size0 options ss line_length = usage true size0 options ss line_length.
Proof.
  induction 1 as [|o options Ho _ IH]; intros ss line_length; simpl; [by split|].
  destruct (usage_break _ _ _) as [ss1 l1]. rewrite Ho, andb_false_r. simpl.
  apply IH.
Qed.

Lemma usage_keyless size0 options :
  Exists (fun o => keyless o = true) options ->
  forall ss line_length, usage false size0 options ss line_length = None.
Proof.
  induction 1 as [o options Ho|o options _ IH]; intros ss line_length; simpl;
    destruct (usage_break _ _ _) as [ss1 l1].
  - by rewrite Ho.
  - destruct (keyless o); [done|]. apply IH.
Qed.

Lemma usage_NDEBUG size0 options :
  forall ss line_length, is_Some (usage true size0 options ss line_length).
Proof.
  induction options as [|o options IH]; intros ss line_length; simpl; [done|].
  destruct (usage_break _ _ _) as [ss1 l1]. apply IH.
Qed.

Lemma usage_extends NDEBUG size0 options :
  forall ss line_length ss1,
    usage NDEBUG size0 options ss line_length = Some ss1 ->
    exists rest, ss1 = ss +:+ rest.
Proof.
  induction options as [|o options IH]; intros ss line_length ss1; simpl.
  - intros [= <-]. exists "". clear. induction ss as [|x ss IH]; [done|].
    by rewrite append_cons, <- IH.
  - unfold usage_break.
    destruct (_ >? _)%Z; (destruct (negb NDEBUG && keyless o); [done|]);
      intros (rest & ->)%IH; rewrite ?append_assoc; by eexists.
Qed.

(** X17.  On a parser whose descriptors all have a key and whose argument
    vector is not empty, [help] returns a text, the same with and without
    [NDEBUG]; the text starts with the banner and the program name. *)
Theorem help_renders (t : Title) (w : World) :
  keyed w ->
  m_argv (self w) <> [] ->
  exists program rest,
    m_argv (self w) !! 0 = Some program /\
    forall NDEBUG,
      help NDEBUG t (self w) = Text (banner t +:+ program +:+ " " +:+ rest).
Proof.
  intros Hk Ha. unfold help.
  destruct (m_argv (self w)) as [|program argv]; [done|]. simpl. clear Ha.
  set (size0 := uint32_t (size (banner t))).
  destruct (usage_keyed true size0 _ Hk (banner t +:+ program +:+ " ") size0)
    as [[ss1 H1] _].
  destruct (usage_extends _ _ _ _ _ _ H1) as [rest ->].
  exists program. eexists. split; [done|]. intros NDEBUG.
  destruct (usage_keyed NDEBUG size0 _ Hk (banner t +:+ program +:+ " ") size0)
    as [_ ->].
  rewrite H1. by rewrite !append_assoc.
Qed.

Lemma keyed_new arguments : keyed (World_new arguments).
Proof. constructor. Qed.

Lemma keyed_option_ T short long w idx w' :
  keyed w -> option_ T short long w = Return idx w' -> keyed w'.
Proof.
  unfold keyed, option_. run. intros Hk.
  assert (empty short && empty long = false ->
          Forall (fun o => keyless o = false)
            (m_options (self w) ++ [OptionWrapper_new T short long])) as Hnew.
  { intros H. apply Forall_app. split; [done|]. by repeat constructor. }
  destruct short as [|a short], long as [|b long]; simpl; [done|..];
    intros [= _ <-]; by apply Hnew.
Qed.

Lemma keyed_update_option idx f w :
  (forall o, keyless (f o) = keyless o) ->
  keyed w -> keyed (world (update_option idx f w)).
Proof.
  intros Hf Hk. unfold keyed, update_option. run.
  apply Forall_alter; [done|]. intros o _ Ho. by rewrite Hf.
Qed.

Lemma keyed_bind {A B : Type} (m : M A) (f : A -> M B) w :
  (forall w1, keyed w1 -> keyed (world (m w1))) ->
  (forall a w1, keyed w1 -> keyed (world (f a w1))) ->
  keyed w -> keyed (world ((m ≫= f) w)).
Proof.
  intros Hm Hf Hw. unfold mbind, M_bind. specialize (Hm w Hw).
  destruct (m w); simpl in *; [by apply Hf | done].
Qed.

Lemma keyed_addHelp w : keyed w -> keyed (world (addHelp w)).
Proof.
  intros Hk. rewrite addHelp_unfold. unfold keyed. simpl.
  apply Forall_app. split; [done|]. by repeat constructor.
Qed.

Lemma keyed_parse w : keyed w -> keyed (world (parse w)).
Proof.
  intros Hk. destruct (parse_grown_scanned w) as (_ & _ & Hf).
  unfold keyed in *.
  induction Hf as [|o o' options options' [Hd _] _ IH]; [done|].
  apply Forall_cons in Hk as [Ho Hk]. constructor; [|by apply IH].
  destruct (declared_shown _ _ (eq_sym Hd)) as (_ & _ & ->). done.
Qed.

(** X18.  A new parser has no descriptor without a key, and it gets none:
    not from an [option] call that returns, nor from a configuration
    member, [addHelp] or [parse]. *)
Theorem declarations_keyed :
  (forall arguments, keyed (World_new arguments)) /\
  (forall T short long w idx w',
     keyed w -> option_ T short long w = Return idx w' -> keyed w') /\
  (forall idx w, keyed w ->
     (forall name, keyed (world (argument idx name w))) /\
     (forall text, keyed (world (description idx text w))) /\
     keyed (world (optional idx w)) /\
     keyed (world (required idx w)) /\
     (forall location, keyed (world (store idx location w))) /\
     (forall f, keyed (world (callback idx f w))) /\
     keyed (world (flag idx w)) /\
     (forall v, keyed (world (defaultValue idx v w))) /\
     keyed (world (overruling idx w))) /\
  (forall w, keyed w -> keyed (world (addHelp w))) /\
  (forall w, keyed w -> keyed (world (parse w))).
Proof.
  split; [exact keyed_new|]. split; [exact keyed_option_|].
  split; [|split; [exact keyed_addHelp | exact keyed_parse]].
  intros idx w Hk. repeat split; intros; by apply keyed_update_option.
Qed.

(** X19.  An [option] call that raises has already appended its
    descriptor, which has no key.  If the caller catches the exception,
    [help] fails its assertion from then on, also after [parse]; compiled
    with [NDEBUG] it returns a text. *)
Theorem keyless_option_breaks_help (T : ValueType) (short long : string)
    (w w' : World) (e : exn) (t : Title) :
  option_ T short long w = Throw e w' ->
  m_argv (self w) <> [] ->
  help false t (self w') = AssertionFailed /\
  help false t (self (world (parse w'))) = AssertionFailed /\
  exists s, help true t (self w') = Text s.
Proof.
  intros Ho Ha.
  assert (m_argv (self w') = m_argv (self w) /\
          m_options (self w') = m_options (self w) ++ [OptionWrapper_new T "" ""])
    as [Hargv Hopts].
  { revert Ho. unfold option_. run.
    destruct short as [|a short], long as [|b long]; simpl; [|done..].
    by intros [= _ <-]. }
  assert (help false t (self w') = AssertionFailed) as Hfail.
  { unfold help. rewrite Hargv, Hopts.
    destruct (m_argv (self w)) as [|program argv]; [done|]. simpl.
    rewrite usage_keyless; [done|]. apply Exists_app. right. by constructor. }
  split; [done|]. split.
  { rewrite <- Hfail. apply help_evolves; [apply parse_program | apply parse_grown_scanned]. }
  unfold help. rewrite Hargv.
  destruct (m_argv (self w)) as [|program argv]; [done|]. simpl.
  destruct (usage_NDEBUG (uint32_t (size (banner t))) (m_options (self w'))
              (banner t +:+ program +:+ " ") (uint32_t (size (banner t)))) as [ss ->].
  by eexists.
Qed.

Lemma uint32_t_small n : (0 <= n < 2 ^ 32)%Z -> uint32_t n = n.
Proof. intros H. unfold uint32_t. by apply Z.mod_small. Qed.

Lemma uint32_t_le n : (0 <= n)%Z -> (uint32_t n <= n)%Z.
Proof. intros H. unfold uint32_t. apply Z.mod_le; lia. Qed.

Lemma usage_size NDEBUG size0 options ss line_length ss1 :
  usage NDEBUG size0 options ss line_length = Some ss1 -> (size ss <= size ss1)%Z.
Proof.
  intros (rest & ->)%usage_extends. rewrite size_append.
  pose proof (size_nonneg rest). lia.
Qed.

(** Past the limit, every turn of the usage loop starts with a line
    break. *)
Lemma usage_own_lines NDEBUG size0 after :
  Forall (fun o => keyless o = false) after ->
  forall ss line_length,
    (0 <= size0)%Z ->
    (size0 + 100 < size ss)%Z ->
    (size ss <= line_length)%Z ->
    (size (ss +:+ own_lines after) < 2 ^ 32)%Z ->
    usage NDEBUG size0 after ss line_length = Some (ss +:+ own_lines after).
Proof.
  induction 1 as [|o after Ho _ IH]; intros ss line_length H0 Hover Hll Hfit.
  { simpl. f_equal. clear. induction ss as [|x ss IH]; [done|].
    by rewrite append_cons, <- IH. }
  simpl. unfold usage_break.
  pose proof (uint32_t_le (size0 + 100)) as Hle.
  destruct (Z.gtb_spec line_length (uint32_t (size0 + 100))) as [_|]; [|lia].
  rewrite Ho, andb_false_r.
  change (own_lines (o :: after))
    with (endl +:+ " " +:+ usage_entry (base o) +:+ own_lines after) in *.
  replace (ss +:+ endl +:+ " " +:+ usage_entry (base o) +:+ own_lines after)
    with (((ss +:+ endl +:+ " ") +:+ usage_entry (base o)) +:+ own_lines after) in *
    by (by rewrite !append_assoc).
  set (ss1 := (ss +:+ endl +:+ " ") +:+ usage_entry (base o)) in *.
  assert (size ss <= size ss1)%Z as Hgrow.
  { unfold ss1. rewrite !size_append.
    pose proof (size_nonneg endl). pose proof (size_nonneg " ").
    pose proof (size_nonneg (usage_entry (base o))). lia. }
  assert (size ss1 < 2 ^ 32)%Z as Hfit1.
  { rewrite size_append in Hfit. pose proof (size_nonneg (own_lines after)). lia. }
  apply IH; [done| lia | | done].
  rewrite uint32_t_small; lia.
Qed.

(** The usage loop over the first descriptors, and the counter it leaves:
    after a turn it is not below the length of the text. *)
Lemma usage_counter NDEBUG size0 before :
  forall ss line_length ss1,
    usage NDEBUG size0 before ss line_length = Some ss1 ->
    (0 <= size0 <= size ss)%Z ->
    (size0 <= line_length)%Z ->
    (size ss1 + 100 < 2 ^ 32)%Z ->
    exists line_length1,
      (before <> [] \/ size ss <= line_length -> size ss1 <= line_length1)%Z /\
      forall after,
        usage NDEBUG size0 (before ++ after) ss line_length =
        usage NDEBUG size0 after ss1 line_length1.
Proof.
  induction before as [|o before IH]; intros ss line_length ss1 Hu H0 Hll Hfit.
  { injection Hu as <-. exists line_length. split; [|done]. by intros [|]. }
  simpl in Hu. simpl. unfold usage_break in *.
  pose proof (uint32_t_le (size0 + 100)) as Hle.
  pose proof (size_nonneg endl). pose proof (size_nonneg " ").
  pose proof (size_nonneg (usage_entry (base o))).
  destruct (Z.gtb_spec line_length (uint32_t (size0 + 100))) as [Hgt|Hgt];
    (destruct (negb NDEBUG && keyless o); [done|]);
    pose proof (usage_size _ _ _ _ _ _ Hu) as Hsize;
    (apply IH in Hu as (line_length1 & Hc1 & Hc2);
     [exists line_length1; split; [intros _; apply Hc1; right|exact Hc2] |..]);
    rewrite ?size_append in *; try lia;
    rewrite uint32_t_small; rewrite ?size_append; lia.
Qed.

(** X20.  The counter of the usage loop adds, turn after turn, the length
    of all the usage text written so far.  So once the text written for
    the first descriptors is longer than 100 characters, every further
    descriptor is put on a line of its own, whatever its length. *)
Theorem usage_own_line_each (NDEBUG : bool) (size0 : Z)
    (before after : list OptionWrapper) (ss ss1 : string) :
  before <> [] ->
  Forall (fun o => keyless o = false) after ->
  (0 <= size0 <= size ss)%Z ->
  usage NDEBUG size0 before ss size0 = Some ss1 ->
  (size0 + 100 < size ss1)%Z ->
  (size (ss1 +:+ own_lines after) + 100 < 2 ^ 32)%Z ->
  usage NDEBUG size0 (before ++ after) ss size0 = Some (ss1 +:+ own_lines after).
Proof.
  intros Hne Hk H0 Hu Hover Hfit.
  pose proof (size_nonneg (own_lines after)).
  rewrite size_append in Hfit.
  destruct (usage_counter _ _ _ _ _ _ Hu H0) as (line_length1 & H1 & ->); [lia..|].
  apply usage_own_lines; [done|lia|lia|by auto|]. rewrite size_append. lia.
Qed.

(** ** The split of a token, as a function *)

Lemma find_split c s p :
  find c s = Some p ->
  s = substr s 0 p +:+ String c (substr_from s (p + 1)) /\
  find c (substr s 0 p) = None.
Proof.
  unfold substr, substr_from. revert p.
  induction s as [|a s IH]; intros p; simpl; [done|].
  destruct (Ascii.eqb_spec a c) as [->|Hne].
  - intros [= <-]. simpl. by rewrite Nat.sub_0_r, substring_0_all.
  - destruct (find c s) as [q|] eqn:F; [|done]. simpl. intros [= <-].
    destruct (IH q eq_refl) as [H1 H2]. simpl.
    rewrite append_cons, <- H1. split; [done|].
    simpl. rewrite (proj2 (Ascii.eqb_neq a c) Hne), H2. done.
Qed.

(** X21.  [parseOptionWithEqualSign] splits at the first equal sign and
    nowhere else: it returns an option and a value exactly for a token
    that reads option, equal sign, value with no equal sign in the option,
    and the token itself without a value exactly when it holds no equal
    sign.  Joining what it returns gives the token back. *)
Theorem parseOptionWithEqualSign_splits (arg opt : string) :
  (forall v, parseOptionWithEqualSign arg = (opt, Some v) <->
             arg = opt +:+ "=" +:+ v /\ find "=" opt = None) /\
  (parseOptionWithEqualSign arg = (opt, None) <->
   arg = opt /\ find "=" arg = None).
Proof.
  split; [intros v|]; split.
  - unfold parseOptionWithEqualSign.
    destruct (find "=" arg) as [p|] eqn:F; [|done]. intros [= <- <-].
    by apply find_split.
  - intros [-> H]. by apply split_equal_sign.
  - unfold parseOptionWithEqualSign.
    destruct (find "=" arg) as [p|] eqn:F; [done|]. by intros [= <-].
  - intros [<- H]. by apply split_no_equal_sign.
Qed.

Lemma parse_raises_silently_witness :
  let w := declare [""; "-x"; "something"; "-b"; "hello"] required_without_default in
  exists e w', parse w = Throw e w' /\ out w' = out w.
Proof.
  intros w. destruct (parse w) as [b w'|e w'] eqn:Hp; [by vm_compute in Hp|].
  exists e, w'. split; [done|]. exact (proj1 (parse_raises_silently w w' e Hp)).
Defined.

Lemma help_renders_witness :
  let w := declare ["./basic"; "-h"] sample_application in
  exists program rest,
    m_argv (self w) !! 0 = Some program /\
    forall NDEBUG,
      help NDEBUG sample_title (self w) =
      Text (banner sample_title +:+ program +:+ " " +:+ rest).
Proof.
  intros w. apply (help_renders sample_title w); [|done].
  unfold keyed. vm_compute. repeat constructor.
Defined.

Lemma keyless_option_breaks_help_witness :
  let w := World_new ["prog"] in
  exists e w', option_ TString "" "" w = Throw e w' /\
    help false Title.new (self w') = AssertionFailed.
Proof.
  intros w. eexists _, _. split; [reflexivity|].
  refine (proj1 (keyless_option_breaks_help TString "" "" w _ _ Title.new eq_refl _)).
  done.
Defined.

Lemma usage_own_line_each_witness :
  let options := m_options (self (declare ["./basic"] sample_application)) in
  exists ss1,
    usage false 0 ((options ++ options ++ options) ++ options) "./basic " 0 =
    Some (ss1 +:+ own_lines options).
Proof.
  intros options. eexists.
  apply (usage_own_line_each false 0 (options ++ options ++ options) options "./basic ").
  - done.
  - vm_compute. repeat constructor.
  - by vm_compute.
  - vm_compute. reflexivity.
  - by vm_compute.
  - by vm_compute.
Defined.

